(** * Kernel.py: the scheduler, the signal bus and the lifecycle registry

    A shallow embedding of [KernelJob], [Scheduler] and [Kernel] from
    [Kernel.py], followed by the properties established about them.

    Conventions of the embedding.
    - Python objects that are mutated through references ([KernelJob]
      instances held in [Scheduler.jobs] and returned by [add_job]) live in a
      store indexed by object identity.
    - Python exceptions are the [Raise] outcomes of the [Outcome] monad;
      [try ... except AttributeError: pass] is [except_AttributeError].
    - Callables handed to the kernel (work items, listeners) are opaque: a call
      is recorded in a trace, and a work item lets the wall clock advance by
      its [duration].
    - [time.time()] reads the [now] field; timestamps are rationals. *)

From Stdlib Require Import ZArith QArith Qround List String Ascii Bool Lia Lqa.
From stdpp Require Import base gmap list strings.

Close Scope Q_scope.
Local Open Scope Z_scope.

(** ** Python runtime *)

Module Py.

(** The exceptions that the modelled code can raise. *)
Inductive Exn := KeyError | AttributeError | ValueError | TypeError.

(** Result of running a piece of code: a value, an exception, or the model
    ran out of loop budget ([OutOfFuel] is never a Python behaviour). *)
Inductive Outcome (A : Type) :=
| Ok (a : A)
| Raise (e : Exn)
| OutOfFuel.
Arguments Ok {A} a.
Arguments Raise {A} e.
Arguments OutOfFuel {A}.

Definition bind {A B} (m : Outcome A) (k : A -> Outcome B) : Outcome B :=
  match m with
  | Ok a => k a
  | Raise e => Raise e
  | OutOfFuel => OutOfFuel
  end.

(** Values that are stored, sent as messages or written to the config. *)
Inductive Value :=
| VNone
| VBool (b : bool)
| VInt (n : Z)
| VFloat (q : Q)
| VStr (s : string).

(** [isinstance(v, str)], [isinstance(v, int)], ...: [bool] is a subclass
    of [int] in Python, so a boolean is an instance of [int]. *)
Definition isinstance_str (v : Value) : bool :=
  match v with VStr _ => true | _ => false end.
Definition isinstance_int (v : Value) : bool :=
  match v with VInt _ | VBool _ => true | _ => false end.
Definition isinstance_float (v : Value) : bool :=
  match v with VFloat _ => true | _ => false end.
Definition isinstance_bool (v : Value) : bool :=
  match v with VBool _ => true | _ => false end.

(** [l.remove(x)]: drops the first element equal to [x]; [ValueError] when
    there is none. *)
Fixpoint list_remove {A} `{EqDecision A} (x : A) (l : list A) : Outcome (list A) :=
  match l with
  | [] => Raise ValueError
  | y :: l' =>
      if decide (x = y) then Ok l'
      else bind (list_remove x l') (fun r => Ok (y :: r))
  end.

(** [s.lower()] on ASCII text. *)
Definition lower_char (c : ascii) : ascii :=
  let n := nat_of_ascii c in
  if ((65 <=? n) && (n <=? 90))%nat then ascii_of_nat (n + 32) else c.

Fixpoint lower (s : string) : string :=
  match s with
  | EmptyString => EmptyString
  | String c s' => String (lower_char c) (lower s')
  end.

(** [s.endswith(e)] for a single string [e]. *)
Definition endswith1 (s e : string) : bool :=
  let ls := String.length s in
  let le := String.length e in
  if (le <=? ls)%nat then
    if string_dec (substring (ls - le) le s) e then true else false
  else false.

(** [s.endswith(es)] for a tuple of strings [es]: any of them. *)
Definition endswith (s : string) (es : list string) : bool :=
  existsb (endswith1 s) es.

End Py.

Import Py.

Global Instance Outcome_bind : MBind Outcome := fun A B k m => Py.bind m k.
Global Instance Outcome_ret : MRet Outcome := fun A a => Ok a.

(** ** Scheduler and KernelJob *)

Definition THREAD_STATE_UNKNOWN : Z := -1.
Definition THREAD_STATE_UNSTARTED : Z := 0.
Definition THREAD_STATE_STARTED : Z := 1.
Definition THREAD_STATE_PAUSED : Z := 2.
Definition THREAD_STATE_FINISHED : Z := 3.
Definition THREAD_STATE_ABORT : Z := 10.

(** Identity of a function object. *)
Definition Callable := nat.

(** Identity of a [KernelJob] object. *)
Definition JobRef := nat.

(** The attributes of a [KernelJob]; the back-reference [scheduler] is the
    one scheduler of the [World] below. *)
Record KernelJob := mkKernelJob {
  interval : Q;
  last_run : Q;
  next_run : option Q;
  process : Callable;
  args : list Value;
  times : option Z;
  paused : bool;
  executing : bool
}.

Definition with_next_run (v : option Q) (j : KernelJob) : KernelJob :=
  mkKernelJob (interval j) (last_run j) v (process j) (args j) (times j)
              (paused j) (executing j).
Definition with_last_run (v : Q) (j : KernelJob) : KernelJob :=
  mkKernelJob (interval j) v (next_run j) (process j) (args j) (times j)
              (paused j) (executing j).
Definition with_times (v : option Z) (j : KernelJob) : KernelJob :=
  mkKernelJob (interval j) (last_run j) (next_run j) (process j) (args j) v
              (paused j) (executing j).
Definition with_paused (v : bool) (j : KernelJob) : KernelJob :=
  mkKernelJob (interval j) (last_run j) (next_run j) (process j) (args j)
              (times j) v (executing j).

(** One invocation [process( *args)] made by job [caller]. *)
Record Call := mkCall {
  caller : JobRef;
  callee : Callable;
  actuals : list Value
}.

(** Where the worker thread stands inside [Scheduler.run]. *)
Inductive Pc :=
| PcEntry        (* not yet executed line 56 *)
| PcWhile        (* about to test [self.state != THREAD_STATE_ABORT] *)
| PcSleep        (* about to [time.sleep(0.1)] *)
| PcAbortCheck   (* about to test [self.state == THREAD_STATE_ABORT] *)
| PcPauseLoop    (* about to test [self.state == THREAD_STATE_PAUSED] *)
| PcTick         (* about to run the [for job in self.jobs] loop *)
| PcFinish       (* left the while loop, about to assign FINISHED *)
| PcExit.        (* [run] has returned, or an exception ended the thread *)

(** The scheduler, its job objects, the clock and the trace of work-item
    calls. *)
Record World := mkWorld {
  now : Q;
  calls : list Call;
  state : Z;
  jobs : list JobRef;
  heap : gmap JobRef KernelJob;
  pc : Pc
}.

Definition with_now (v : Q) (w : World) : World :=
  mkWorld v (calls w) (state w) (jobs w) (heap w) (pc w).
Definition with_calls (v : list Call) (w : World) : World :=
  mkWorld (now w) v (state w) (jobs w) (heap w) (pc w).
Definition with_state (v : Z) (w : World) : World :=
  mkWorld (now w) (calls w) v (jobs w) (heap w) (pc w).
Definition with_jobs (v : list JobRef) (w : World) : World :=
  mkWorld (now w) (calls w) (state w) v (heap w) (pc w).
Definition with_heap (v : gmap JobRef KernelJob) (w : World) : World :=
  mkWorld (now w) (calls w) (state w) (jobs w) v (pc w).
Definition with_pc (v : Pc) (w : World) : World :=
  mkWorld (now w) (calls w) (state w) (jobs w) (heap w) v.

(** [self.<attr> = v] on the job object [self]. *)
Definition setattr (self : JobRef) (f : KernelJob -> KernelJob) (w : World) : World :=
  with_heap (alter f self (heap w)) w.

(** [time.sleep(d)]. *)
Definition sleep (d : Q) (w : World) : World :=
  with_now (Qplus (now w) d) w.

Section Scheduling.

(** How long each work item runs. *)
Variable duration : Callable -> list Value -> Q.

(** [self.process( *self.args)]: the call is recorded and takes its time. *)
Definition invoke (self : JobRef) (j : KernelJob) (w : World) : World :=
  with_now (Qplus (now w) (duration (process j) (args j)))
    (with_calls (calls w ++ [mkCall self (process j) (args j)]) w).

(** [KernelJob.__init__]. *)
Definition KernelJob_init (process : Callable) (args : list Value)
    (interval : Q) (times : option Z) (w : World) : KernelJob :=
  mkKernelJob interval (now w) (Some (Qplus (now w) interval))
              process args times false false.

(** [KernelJob.scheduled] (a property). *)
Definition KernelJob_scheduled (j : KernelJob) (w : World) : bool :=
  match next_run j with
  | None => false
  | Some t => Qle_bool t (now w)
  end.

(** The statements of [KernelJob.run] before the work item is called
    (lines 32-37). *)
Definition KernelJob_run_prologue (self : JobRef) (j : KernelJob) (w : World)
    : Outcome World :=
  let w := setattr self (with_next_run None) w in
  match times j with
  | None => Ok w
  | Some n =>
      let w := setattr self (with_times (Some (n - 1))) w in
      if n - 1 <=? 0 then
        l ← list_remove self (jobs w);
        Ok (with_jobs l w)
      else Ok w
  end.

(** The statements of [KernelJob.run] after the work item has returned
    (lines 39-40). *)
Definition KernelJob_run_epilogue (self : JobRef) (w : World) : World :=
  let w := setattr self (with_last_run (now w)) w in
  setattr self (fun j => with_next_run (Some (Qplus (last_run j) (interval j))) j) w.

(** [KernelJob.run]. *)
Definition KernelJob_run (self : JobRef) (w : World) : Outcome World :=
  match heap w !! self with
  | None => Ok w
  | Some j =>
      if paused j then Ok w
      else
        w ← KernelJob_run_prologue self j w;
        Ok (KernelJob_run_epilogue self (invoke self j w))
  end.

(** [Scheduler.add_job]: builds the job, appends it, returns it. *)
Definition Scheduler_add_job (run : Callable) (args : list Value)
    (interval : Q) (times : option Z) (w : World) : JobRef * World :=
  let job := fresh (dom (heap w)) in
  (job,
   with_jobs (jobs w ++ [job])
     (with_heap (<[job := KernelJob_init run args interval times w]> (heap w)) w)).

(** The loop [for job in self.jobs: if job.scheduled: job.run()] of
    [Scheduler.run] (lines 63-65).  Python's list iterator keeps an index
    [i] into the live list: it stops when [i] is past the end and otherwise
    yields [jobs[i]] and moves to [i + 1].  [fuel] bounds the number of
    turns; the length of the collection is enough, since a pass never
    lengthens it ([for_jobs_total] below). *)
Fixpoint for_jobs (fuel : nat) (i : nat) (w : World) : Outcome World :=
  match jobs w !! i with
  | None => Ok w
  | Some job =>
      match fuel with
      | O => OutOfFuel
      | S fuel =>
          let due := match heap w !! job with
                     | Some j => KernelJob_scheduled j w
                     | None => false
                     end in
          w ← (if due then KernelJob_run job w else Ok w);
          for_jobs fuel (S i) w
      end
  end.

(** One pass of the worker over the job collection. *)
Definition tick (w : World) : Outcome World :=
  for_jobs (length (jobs w)) 0%nat w.

(** One step of the worker thread inside [Scheduler.run]: a test, a sleep,
    an assignment, or one whole pass over the jobs (other threads act between
    steps, not in the middle of a pass). *)
Definition Scheduler_run_step (w : World) : World :=
  match pc w with
  | PcEntry => with_pc PcWhile (with_state THREAD_STATE_STARTED w)
  | PcWhile =>
      if decide (state w = THREAD_STATE_ABORT) then with_pc PcFinish w
      else with_pc PcSleep w
  | PcSleep => with_pc PcAbortCheck (sleep (1 # 10) w)
  | PcAbortCheck =>
      if decide (state w = THREAD_STATE_ABORT) then with_pc PcExit w
      else with_pc PcPauseLoop w
  | PcPauseLoop =>
      if decide (state w = THREAD_STATE_PAUSED) then sleep 1 w
      else with_pc PcTick w
  | PcTick =>
      match tick w with
      | Ok w' => with_pc PcWhile w'
      | _ => with_pc PcExit w
      end
  | PcFinish => with_pc PcExit (with_state THREAD_STATE_FINISHED w)
  | PcExit => w
  end.

(** [Scheduler.resume], [Scheduler.pause], [Scheduler.stop]. *)
Definition Scheduler_resume (w : World) : World :=
  with_state THREAD_STATE_STARTED w.
Definition Scheduler_pause (w : World) : World :=
  with_state THREAD_STATE_PAUSED w.
Definition Scheduler_stop (w : World) : World :=
  with_state THREAD_STATE_ABORT w.

(** What can happen next to a scheduler: its worker thread takes a step, or
    some other thread calls one of its methods. *)
Inductive Action :=
| ActWorker
| ActResume
| ActPause
| ActStop
| ActAddJob (run : Callable) (args : list Value) (interval : Q) (times : option Z).

Definition act (a : Action) (w : World) : World :=
  match a with
  | ActWorker => Scheduler_run_step w
  | ActResume => Scheduler_resume w
  | ActPause => Scheduler_pause w
  | ActStop => Scheduler_stop w
  | ActAddJob run args interval times =>
      snd (Scheduler_add_job run args interval times w)
  end.

(** The world after a sequence of actions, first action first. *)
Definition exec (acts : list Action) (w : World) : World :=
  fold_left (fun w a => act a w) acts w.

End Scheduling.

(** [Scheduler.__init__]: a fresh, unstarted scheduler at clock [t]. *)
Definition Scheduler_init (t : Q) : World :=
  mkWorld t [] THREAD_STATE_UNSTARTED [] ∅ PcEntry.


(** ** Kernel *)

(** The objects handed to [listen] and [unlisten]: signal codes are strings,
    listeners are function objects.  Both are hashable, so either can be
    looked up in a dict; a string never equals a function. *)
Inductive Obj :=
| OStr (s : string)
| OFun (f : Callable).

Global Instance Obj_eq_dec : EqDecision Obj.
Proof. solve_decision. Defined.

Global Instance Obj_countable : Countable Obj.
Proof.
  refine (inj_countable'
            (fun o => match o with OStr s => inl s | OFun f => inr f end)
            (fun x => match x with inl s => OStr s | inr f => OFun f end) _).
  by intros [].
Defined.

(** A registered module: the methods it exposes, by attribute name, each
    acting on the module's own state. *)
Record PyModule := mkPyModule {
  attrs : gmap string (Z -> Z);
  mstate : Z
}.

(** A registered loader: what [loader.load_types()] yields, a sequence of
    [(description, extensions, mimetype)] with [extensions] a tuple. *)
Record Loader := mkLoader {
  load_types : list (string * list string * string)
}.

(** Calls on the config object. *)
Inductive ConfigCall :=
| Write (key : string) (value : Value)
| WriteInt (key : string) (value : Value)
| WriteFloat (key : string) (value : Value)
| WriteBool (key : string) (value : Value).

(** Calls that leave the kernel. [Called code f message] is the call
    [f(message)] of the function object [f] made on behalf of signal [code];
    [Loaded name pathname group] is [loader.load(pathname, group)] on the
    loader registered as [name]. *)
Inductive Event :=
| Called (code : Obj) (f : Obj) (message : Value)
| Loaded (loader_name : string) (pathname : string) (group : Value).

(** The attributes of [Kernel] that the modelled methods use.  [loaders] and
    [message_queue] are dicts that get iterated, so they keep insertion
    order; [config] is [None] or the calls received by the config object. *)
Record Kernel := mkKernel {
  modules : gmap string PyModule;
  loaders : list (string * Loader);
  listeners : gmap Obj (list Obj);
  last_message : gmap Obj Value;
  message_queue : list (Obj * Value);
  is_queue_processing : bool;
  config : option (list ConfigCall);
  events : list Event
}.

Definition with_modules (v : gmap string PyModule) (k : Kernel) : Kernel :=
  mkKernel v (loaders k) (listeners k) (last_message k) (message_queue k)
           (is_queue_processing k) (config k) (events k).
Definition with_loaders (v : list (string * Loader)) (k : Kernel) : Kernel :=
  mkKernel (modules k) v (listeners k) (last_message k) (message_queue k)
           (is_queue_processing k) (config k) (events k).
Definition with_listeners (v : gmap Obj (list Obj)) (k : Kernel) : Kernel :=
  mkKernel (modules k) (loaders k) v (last_message k) (message_queue k)
           (is_queue_processing k) (config k) (events k).
Definition with_last_message (v : gmap Obj Value) (k : Kernel) : Kernel :=
  mkKernel (modules k) (loaders k) (listeners k) v (message_queue k)
           (is_queue_processing k) (config k) (events k).
Definition with_message_queue (v : list (Obj * Value)) (k : Kernel) : Kernel :=
  mkKernel (modules k) (loaders k) (listeners k) (last_message k) v
           (is_queue_processing k) (config k) (events k).
Definition with_is_queue_processing (v : bool) (k : Kernel) : Kernel :=
  mkKernel (modules k) (loaders k) (listeners k) (last_message k)
           (message_queue k) v (config k) (events k).
Definition with_config (v : option (list ConfigCall)) (k : Kernel) : Kernel :=
  mkKernel (modules k) (loaders k) (listeners k) (last_message k)
           (message_queue k) (is_queue_processing k) v (events k).
Definition with_events (v : list Event) (k : Kernel) : Kernel :=
  mkKernel (modules k) (loaders k) (listeners k) (last_message k)
           (message_queue k) (is_queue_processing k) (config k) v.

(** [Kernel.__init__] without a config. *)
Definition Kernel_init : Kernel :=
  mkKernel ∅ [] ∅ ∅ [] false None [].

(** [d[key] = value] on an insertion-ordered dict: an existing key keeps its
    place, a new key goes last. *)
Fixpoint dict_set {K V} `{EqDecision K} (key : K) (value : V) (d : list (K * V))
    : list (K * V) :=
  match d with
  | [] => [(key, value)]
  | (k', v') :: d' =>
      if decide (key = k') then (k', value) :: d'
      else (k', v') :: dict_set key value d'
  end.

(** [d[key]] on a dict: [KeyError] for a missing key. *)
Definition getitem {K V} `{Countable K} (d : gmap K V) (key : K) : Outcome V :=
  match d !! key with
  | Some v => Ok v
  | None => Raise KeyError
  end.

(** [m.<name>] for a method name: [AttributeError] when the module does not
    have it. *)
Definition getattr (m : PyModule) (name : string) : Outcome (Z -> Z) :=
  match attrs m !! name with
  | Some f => Ok f
  | None => Raise AttributeError
  end.

(** [try: body  except AttributeError: pass], the handler leaving the kernel
    as it was before [body]. *)
Definition except_AttributeError (body : Outcome Kernel) (k : Kernel)
    : Outcome Kernel :=
  match body with
  | Raise AttributeError => Ok k
  | o => o
  end.

(** [f(message)] for an object [f]: only functions can be called. *)
Definition call (code : Obj) (f : Obj) (message : Value) (k : Kernel)
    : Outcome Kernel :=
  match f with
  | OFun _ => Ok (with_events (events k ++ [Called code f message]) k)
  | OStr _ => Raise TypeError
  end.

(** The default [Kernel.run_later]: [lambda listener, message:
    listener(message)]. *)
Definition run_later (code : Obj) (listener : Obj) (message : Value) (k : Kernel)
    : Outcome Kernel :=
  call code listener message k.

(** [Kernel.signal]; the lock makes the assignment atomic. *)
Definition Kernel_signal (code : Obj) (message : Value) (k : Kernel) : Kernel :=
  with_message_queue (dict_set code message (message_queue k)) k.

(** The loop [for listener in listeners: self.run_later(listener, message)]. *)
Fixpoint for_listeners (code : Obj) (message : Value) (ls : list Obj) (k : Kernel)
    : Outcome Kernel :=
  match ls with
  | [] => Ok k
  | listener :: ls' =>
      k ← run_later code listener message k;
      for_listeners code message ls' k
  end.

(** The loop [for code, message in queue.items()] of [process_queue]. *)
Fixpoint for_queue (queue : list (Obj * Value)) (k : Kernel) : Outcome Kernel :=
  match queue with
  | [] => Ok k
  | (code, message) :: queue' =>
      k ← match listeners k !! code with
          | Some ls => for_listeners code message ls k
          | None => Ok k
          end;
      for_queue queue' (with_last_message (<[code := message]> (last_message k)) k)
  end.

(** [Kernel.process_queue]. *)
Definition Kernel_process_queue (k : Kernel) : Outcome Kernel :=
  let k := with_is_queue_processing true k in
  let queue := message_queue k in
  let k := with_message_queue [] k in
  k ← for_queue queue k;
  Ok (with_is_queue_processing false k).

(** [Kernel.delegate_messages]. *)
Definition Kernel_delegate_messages (k : Kernel) : Outcome Kernel :=
  if is_queue_processing k then Ok k
  else Kernel_process_queue k.

(** [Kernel.listen(signal, function)]. *)
Definition Kernel_listen (signal function : Obj) (k : Kernel) : Outcome Kernel :=
  let k :=
    match listeners k !! signal with
    | Some ls => with_listeners (<[signal := ls ++ [function]]> (listeners k)) k
    | None => with_listeners (<[signal := [function]]> (listeners k)) k
    end in
  match last_message k !! signal with
  | Some last => call signal function last k
  | None => Ok k
  end.

(** [Kernel.unlisten(listener, code)]: the parameters in the order of the
    [def] line. *)
Definition Kernel_unlisten (listener code : Obj) (k : Kernel) : Outcome Kernel :=
  match listeners k !! code with
  | Some ls =>
      ls' ← list_remove listener ls;
      Ok (with_listeners (<[code := ls']> (listeners k)) k)
  | None => Ok k
  end.

(** [self.config.<Write...>(key, value)]; [self.config] may be [None]. *)
Definition config_call (c : ConfigCall) (k : Kernel) : Outcome Kernel :=
  match config k with
  | Some log => Ok (with_config (Some (log ++ [c])) k)
  | None => Raise AttributeError
  end.

(** [Kernel.write_config]. *)
Definition Kernel_write_config (key : string) (value : Value) (k : Kernel)
    : Outcome Kernel :=
  if isinstance_str value then config_call (Write key value) k
  else if isinstance_int value then config_call (WriteInt key value) k
  else if isinstance_float value then config_call (WriteFloat key value) k
  else if isinstance_bool value then config_call (WriteBool key value) k
  else Ok k.

(** The keys accepted by [Kernel.__setitem__]: a pair or a string. *)
Inductive ItemKey :=
| KeyTuple (first second : Obj)
| KeyStr (s : string).

(** [Kernel.__setitem__]: [kernel[signal, function] = None] unsubscribes,
    [kernel[signal, function] = x] subscribes, [kernel[name] = x] writes a
    setting. *)
Definition Kernel_setitem (key : ItemKey) (value : Value) (k : Kernel)
    : Outcome Kernel :=
  match key with
  | KeyTuple first second =>
      match value with
      | VNone => Kernel_unlisten first second k
      | _ => Kernel_listen first second k
      end
  | KeyStr s => Kernel_write_config s value k
  end.

(** [Kernel.add_module] for a module without an [initialize] hook that
    needs modelling, and [Kernel.add_loader]. *)
Definition Kernel_add_module (module_name : string) (module : PyModule)
    (k : Kernel) : Kernel :=
  with_modules (<[module_name := module]> (modules k)) k.

Definition Kernel_add_loader (loader_name : string) (loader : Loader)
    (k : Kernel) : Kernel :=
  with_loaders (dict_set loader_name loader (loaders k)) k.

(** [self.modules[thread_name].<method>()]. *)
Definition call_method (method : string) (thread_name : string) (k : Kernel)
    : Outcome Kernel :=
  m ← getitem (modules k) thread_name;
  f ← getattr m method;
  Ok (with_modules (<[thread_name := mkPyModule (attrs m) (f (mstate m))]> (modules k)) k).

(** The six lifecycle operations, lines 420-454. *)
Definition Kernel_start (thread_name : string) (k : Kernel) : Outcome Kernel :=
  except_AttributeError (call_method "start" thread_name k) k.
Definition Kernel_resume (thread_name : string) (k : Kernel) : Outcome Kernel :=
  except_AttributeError (call_method "resume" thread_name k) k.
Definition Kernel_pause (thread_name : string) (k : Kernel) : Outcome Kernel :=
  except_AttributeError (call_method "pause" thread_name k) k.
Definition Kernel_abort (thread_name : string) (k : Kernel) : Outcome Kernel :=
  except_AttributeError (call_method "abort" thread_name k) k.
Definition Kernel_reset (thread_name : string) (k : Kernel) : Outcome Kernel :=
  except_AttributeError (call_method "reset" thread_name k) k.
Definition Kernel_stop (thread_name : string) (k : Kernel) : Outcome Kernel :=
  except_AttributeError (call_method "stop" thread_name k) k.

(** The operations by name. *)
Inductive LifecycleOp := OpStart | OpResume | OpPause | OpAbort | OpReset | OpStop.

Definition lifecycle (op : LifecycleOp) : string -> Kernel -> Outcome Kernel :=
  match op with
  | OpStart => Kernel_start
  | OpResume => Kernel_resume
  | OpPause => Kernel_pause
  | OpAbort => Kernel_abort
  | OpReset => Kernel_reset
  | OpStop => Kernel_stop
  end.

Definition method_name (op : LifecycleOp) : string :=
  match op with
  | OpStart => "start"
  | OpResume => "resume"
  | OpPause => "pause"
  | OpAbort => "abort"
  | OpReset => "reset"
  | OpStop => "stop"
  end.

(** The inner loop of [Kernel.load] over one loader's [load_types()]:
    [Some k'] when an entry matched and [loader.load] was called (the
    [return True]), [None] when the loop ran to its end. *)
Fixpoint for_load_types (loader_name : string)
    (types : list (string * list string * string))
    (pathname : string) (group : Value) (k : Kernel) : option Kernel :=
  match types with
  | [] => None
  | (description, extensions, mimetype) :: types' =>
      if endswith (lower pathname) extensions then
        Some (with_events (events k ++ [Loaded loader_name pathname group]) k)
      else for_load_types loader_name types' pathname group k
  end.

(** The outer loop of [Kernel.load] over [self.loaders.items()]. *)
Fixpoint for_loaders (ls : list (string * Loader))
    (pathname : string) (group : Value) (k : Kernel) : Kernel * Value :=
  match ls with
  | [] => (k, VNone)
  | (loader_name, loader) :: ls' =>
      match for_load_types loader_name (load_types loader) pathname group k with
      | Some k' => (k', VBool true)
      | None => for_loaders ls' pathname group k
      end
  end.

(** [Kernel.load]: the new kernel and the returned value, [True] or the
    [None] of falling off the end. *)
Definition Kernel_load (pathname : string) (group : Value) (k : Kernel)
    : Kernel * Value :=
  for_loaders (loaders k) pathname group k.

(** ** Vocabulary of the statements *)

(** A function object. *)
Definition is_function (o : Obj) : Prop :=
  match o with OFun _ => True | OStr _ => False end.

(** Every registered listener is a function object. *)
Definition listeners_callable (k : Kernel) : Prop :=
  forall (code : Obj) (ls : list Obj),
    listeners k !! code = Some ls -> Forall is_function ls.

(** The listener list of a topic, empty when the topic has none. *)
Definition subscribers (k : Kernel) (topic : Obj) : list Obj :=
  default [] (listeners k !! topic).

(** Is the event a listener call made for [topic]? *)
Definition called_for (topic : Obj) (e : Event) : bool :=
  match e with
  | Called code _ _ => bool_decide (code = topic)
  | Loaded _ _ _ => false
  end.

(** The listener calls owed to the entries of a queue, in order. *)
Definition deliveries (L : gmap Obj (list Obj)) (queue : list (Obj * Value))
    : list Event :=
  flat_map (fun e => map (fun l => Called (fst e) l (snd e)) (default [] (L !! fst e)))
           queue.

(** The last-message map after the entries of a queue were processed. *)
Definition record_all (queue : list (Obj * Value)) (lm : gmap Obj Value)
    : gmap Obj Value :=
  fold_left (fun lm e => <[fst e := snd e]> lm) queue lm.

(** One of a loader's entries accepts the pathname the way line 473 tests it:
    the lower-cased pathname ends with one of the extensions as advertised. *)
Definition loader_accepts (pathname : string) (l : string * Loader) : bool :=
  existsb (fun t => endswith (lower pathname) (snd (fst t))) (load_types (snd l)).

(** The same test made without regard to case on either side, as the
    specification words it. *)
Definition loader_accepts_any_case (pathname : string) (l : string * Loader) : bool :=
  existsb (fun t => endswith (lower pathname) (map lower (snd (fst t))))
          (load_types (snd l)).

(** How often the work item of job [self] was called. *)
Definition invocations (self : JobRef) (cs : list Call) : nat :=
  length (List.filter (fun c => bool_decide (caller c = self)) cs).

(** The attributes of a job after an execution that began at clock [t] and
    whose work item ran for [d]. *)
Definition executed (d : Q) (t : Q) (j : KernelJob) : KernelJob :=
  mkKernelJob (interval j) (Qplus t d) (Some (Qplus (Qplus t d) (interval j)))
              (process j) (args j) (option_map (fun n => n - 1) (times j))
              (paused j) (executing j).

(** The attributes of a job at the moment its work item is called. *)
Definition executing_now (j : KernelJob) : KernelJob :=
  mkKernelJob (interval j) (last_run j) None (process j) (args j)
              (option_map (fun n => n - 1) (times j)) (paused j) (executing j).

(** Does this execution unregister the job?  It does when the count, once
    decremented, is zero or less. *)
Definition last_execution (j : KernelJob) : bool :=
  match times j with
  | Some n => n - 1 <=? 0
  | None => false
  end.

(** The job collection holds each job once, holds only existing objects, and
    every recorded call was made by an existing object: what [Scheduler]'s
    own methods maintain. *)
Definition well_formed (w : World) : Prop :=
  NoDup (jobs w) /\
  (forall r, r ∈ jobs w -> is_Some (heap w !! r)) /\
  (forall c, c ∈ calls w -> is_Some (heap w !! caller c)).

(** The bookkeeping of a job registered with the finite count [N]: it is
    not paused and has a next run time; while it is in the collection its
    remaining count is [N] less the calls of its work item so far, and calls
    are still owed; once it is out of the collection its work item has been
    called [N] times. *)
Definition counting (self : JobRef) (N : Z) (w : World) : Prop :=
  exists j, heap w !! self = Some j /\ paused j = false /\
    is_Some (next_run j) /\
    (self ∈ jobs w ->
       times j = Some (N - Z.of_nat (invocations self (calls w))) /\
       Z.of_nat (invocations self (calls w)) < N) /\
    (self ∉ jobs w -> Z.of_nat (invocations self (calls w)) = N).

(** [n] executions of a job, one after the other. *)
Fixpoint executions (duration : Callable -> list Value -> Q) (n : nat)
    (self : JobRef) (w : World) : Outcome World :=
  match n with
  | O => Ok w
  | S n' => w' ← KernelJob_run duration self w; executions duration n' self w'
  end.

(** ** Scenarios

    Concrete kernels and schedulers on which the statements are exercised. *)

(** A kernel with one function subscribed to the signal [t]. *)
Definition kernel_one_listener : Kernel :=
  with_listeners {[ OStr "t" := [OFun 1%nat] ]} Kernel_init.

(** A kernel with a config object that has received no call yet. *)
Definition kernel_with_config : Kernel :=
  with_config (Some []) Kernel_init.

(** A kernel whose only loader advertises an upper-case extension. *)
Definition kernel_upper_case_loader : Kernel :=
  Kernel_add_loader "svg"
    (mkLoader [("Scalable Vector Graphics", ["SVG"], "image/svg+xml")])
    Kernel_init.

(** Work items that take no time. *)
Definition instant : Callable -> list Value -> Q := fun _ _ => 0%Q.

(** A scheduler with two jobs registered at clock 0 with interval 1, the
    first with one run left, the second unlimited, looked at when the clock
    shows 2: both are due. *)
Definition two_due : World :=
  sleep 2
    (snd (Scheduler_add_job 8%nat [] 1 None
       (snd (Scheduler_add_job 7%nat [] 1 (Some 1) (Scheduler_init 0))))).

(** A scheduler on which the same two jobs are registered with interval
    1/20 before its thread is started, after the first pass of its worker:
    six steps, from the entry of [run] through [sleep(0.1)] to the end of the
    pass. *)
Definition after_first_pass : World :=
  exec instant
    ([ActAddJob 7%nat [] (1 # 20) (Some 1); ActAddJob 8%nat [] (1 # 20) None]
       ++ repeat ActWorker 6)
    (Scheduler_init 0).

(** A scheduler with one job of count 3 and interval 1/20, registered before
    its thread is started, after forty steps of its worker. *)
Definition after_forty_steps : World :=
  exec instant
    (ActAddJob 7%nat [] (1 # 20) (Some 3) :: repeat ActWorker 40)
    (Scheduler_init 0).

(** The same scheduler with its second job paused. *)
Definition two_due_second_paused : World :=
  setattr 1%nat (with_paused true) two_due.

(** ** Properties of the Kernel *)

Lemma call_method_unregistered (method name : string) (k : Kernel) :
  modules k !! name = None -> call_method method name k = Raise KeyError.
Proof.
  intros Hnone. unfold call_method, getitem. rewrite Hnone. reflexivity.
Qed.

Lemma call_method_registered (method name : string) (k : Kernel) (m : PyModule) :
  modules k !! name = Some m ->
  call_method method name k =
    match attrs m !! method with
    | None => Raise AttributeError
    | Some f =>
        Ok (with_modules (<[name := mkPyModule (attrs m) (f (mstate m))]> (modules k)) k)
    end.
Proof.
  intros Hm. unfold call_method, getitem, getattr. rewrite Hm. simpl.
  destruct (attrs m !! method); reflexivity.
Qed.

Lemma lifecycle_unfold (op : LifecycleOp) (name : string) (k : Kernel) :
  lifecycle op name k =
    except_AttributeError (call_method (method_name op) name k) k.
Proof. destruct op; reflexivity. Qed.

(** C1, as written, fails: on an unregistered name the dict lookup raises
    [KeyError], which [except AttributeError] does not catch. *)
Lemma C1_unregistered_name_raises :
  modules Kernel_init !! "X"%string = None /\
  Kernel_pause "X" Kernel_init = Raise KeyError.
Proof. split; reflexivity. Qed.

(** C1 (amended): for each of start, pause, resume, abort, stop, reset and
    every name: on an unregistered name the operation raises [KeyError]; on a
    registered module that lacks the method it returns normally with the whole
    kernel (maps and every module's state) unchanged; on a registered module
    that has the method it returns normally and only that module's state is
    replaced by what the method makes of it. *)
Theorem C1_lifecycle_probe (op : LifecycleOp) (name : string) (k : Kernel) :
  lifecycle op name k =
    match modules k !! name with
    | None => Raise KeyError
    | Some m =>
        match attrs m !! method_name op with
        | None => Ok k
        | Some f =>
            Ok (with_modules (<[name := mkPyModule (attrs m) (f (mstate m))]> (modules k)) k)
        end
    end.
Proof.
  rewrite lifecycle_unfold.
  destruct (modules k !! name) as [m|] eqn:Hm.
  - rewrite (call_method_registered _ _ _ _ Hm).
    destruct (attrs m !! method_name op); reflexivity.
  - rewrite (call_method_unregistered _ _ _ Hm). reflexivity.
Qed.

(** *** listen and unlisten *)

(** C6: [listen(topic, fn)] for a function [fn] returns normally; the
    listener list of [topic] is the old one (empty if there was none) with
    [fn] appended, every other topic keeps its list, and exactly when
    [last_message] holds a value [v] for [topic] the one call [fn(v)] is made
    before [listen] returns; nothing else in the kernel changes and the
    pending queue is not touched. *)
Theorem C6_listen_appends_and_replays (topic : Obj) (f : Callable) (k : Kernel) :
  Kernel_listen topic (OFun f) k =
    Ok (with_events
          (events k ++ match last_message k !! topic with
                       | Some v => [Called topic (OFun f) v]
                       | None => []
                       end)
          (with_listeners
             (<[topic := subscribers k topic ++ [OFun f]]> (listeners k)) k)).
Proof.
  unfold Kernel_listen, subscribers.
  destruct (listeners k !! topic) as [ls|] eqn:Hl; simpl;
    destruct (last_message k !! topic) as [v|] eqn:Hv; simpl;
    try reflexivity;
    rewrite app_nil_r; destruct k; reflexivity.
Qed.

Lemma list_remove_first {A} `{EqDecision A} (x : A) (l1 l2 : list A) :
  x ∉ l1 -> list_remove x (l1 ++ x :: l2) = Ok (l1 ++ l2).
Proof.
  induction l1 as [|y l1 IH]; intros Hnotin; simpl.
  - rewrite decide_True by reflexivity. reflexivity.
  - apply not_elem_of_cons in Hnotin as [Hne Hnotin].
    rewrite decide_False by exact Hne.
    rewrite (IH Hnotin). reflexivity.
Qed.

Lemma list_remove_absent {A} `{EqDecision A} (x : A) (l : list A) :
  x ∉ l -> list_remove x l = Raise ValueError.
Proof.
  induction l as [|y l IH]; intros Hnotin; simpl.
  - reflexivity.
  - apply not_elem_of_cons in Hnotin as [Hne Hnotin].
    rewrite decide_False by exact Hne.
    rewrite (IH Hnotin). reflexivity.
Qed.

Lemma list_remove_present {A} `{EqDecision A} (x : A) (l : list A) :
  x ∈ l ->
  exists l1 l2, l = l1 ++ x :: l2 /\ (x ∉ l1) /\ list_remove x l = Ok (l1 ++ l2).
Proof.
  induction l as [|y l IH]; intros Hin.
  - inversion Hin.
  - destruct (decide (x = y)) as [->|Hne].
    + exists [], l. split; [reflexivity|]. split; [apply not_elem_of_nil|].
      simpl. rewrite decide_True by reflexivity. reflexivity.
    + apply elem_of_cons in Hin as [Heq|Hin]; [contradiction|].
      destruct (IH Hin) as (l1 & l2 & -> & Hnotin & Hrm).
      exists (y :: l1), l2. split; [reflexivity|].
      split; [apply not_elem_of_cons; split; assumption|].
      simpl. rewrite decide_False by exact Hne. rewrite Hrm. reflexivity.
Qed.

(** With the arguments in the order of the [def] line, listener first, the
    first occurrence of the listener leaves the list of the signal. *)
Lemma unlisten_def_order_removes_first (code listener : Obj) (k : Kernel)
    (l1 l2 : list Obj) :
  listeners k !! code = Some (l1 ++ listener :: l2) ->
  listener ∉ l1 ->
  Kernel_unlisten listener code k =
    Ok (with_listeners (<[code := l1 ++ l2]> (listeners k)) k).
Proof.
  intros Hl Hnotin. unfold Kernel_unlisten. rewrite Hl.
  rewrite (list_remove_first _ _ _ Hnotin). reflexivity.
Qed.

(** With the arguments in the order of the [def] line, a listener that is not
    in the list of a signal that has one makes [list.remove] raise. *)
Lemma unlisten_def_order_absent_raises (code listener : Obj) (k : Kernel)
    (ls : list Obj) :
  listeners k !! code = Some ls ->
  listener ∉ ls ->
  Kernel_unlisten listener code k = Raise ValueError.
Proof.
  intros Hl Hnotin. unfold Kernel_unlisten. rewrite Hl.
  rewrite (list_remove_absent _ _ Hnotin). reflexivity.
Qed.

(** Called as documented, signal first, [unlisten] looks the function up as
    a key of [listeners]; when no signal is a function object it finds nothing
    and returns with the kernel as it was. *)
Lemma unlisten_documented_order_is_noop (signal function : Obj) (k : Kernel) :
  listeners k !! function = None ->
  Kernel_unlisten signal function k = Ok k.
Proof.
  intros Hnone. unfold Kernel_unlisten. rewrite Hnone. reflexivity.
Qed.

(** C7 fails on the code.  The documented call [unlisten(signal, function)],
    which is also the call [kernel[signal, function] = None] makes, binds the
    signal to the parameter [listener] and the function to [code]: after
    [listen("t", f)] it returns normally and [f] is still subscribed to
    ["t"]. *)
Theorem C7_documented_unlisten_removes_nothing :
  exists k : Kernel,
    Kernel_listen (OStr "t") (OFun 1%nat) Kernel_init = Ok k /\
    listeners k !! OStr "t" = Some [OFun 1%nat] /\
    Kernel_unlisten (OStr "t") (OFun 1%nat) k = Ok k /\
    Kernel_setitem (KeyTuple (OStr "t") (OFun 1%nat)) VNone k = Ok k.
Proof.
  eexists. split; [reflexivity|].
  split; [vm_compute; reflexivity|].
  split; apply unlisten_documented_order_is_noop; vm_compute; reflexivity.
Qed.

(** *** write_config *)

(** C10: with a config object set, [write_config(key, v)] for a boolean [v]
    makes the one call [config.WriteInt(key, v)]; and for every value the
    method does what it would do without its fourth branch, which therefore
    never runs. *)
Theorem C10_bool_written_as_int (key : string) (k : Kernel) (log : list ConfigCall) :
  config k = Some log ->
  (forall b : bool,
      Kernel_write_config key (VBool b) k =
        Ok (with_config (Some (log ++ [WriteInt key (VBool b)])) k)) /\
  (forall v : Value,
      Kernel_write_config key v k =
        if isinstance_str v then config_call (Write key v) k
        else if isinstance_int v then config_call (WriteInt key v) k
        else if isinstance_float v then config_call (WriteFloat key v) k
        else Ok k).
Proof.
  intros Hcfg. split.
  - intros b. unfold Kernel_write_config, config_call. simpl.
    rewrite Hcfg. reflexivity.
  - intros v. unfold Kernel_write_config. destruct v; reflexivity.
Qed.

Lemma C10_bool_written_as_int_witness :
  Kernel_write_config "units" (VBool true) kernel_with_config =
    Ok (with_config (Some [WriteInt "units" (VBool true)]) kernel_with_config).
Proof.
  apply (proj1 (C10_bool_written_as_int "units" kernel_with_config [] eq_refl)).
Defined.

(** *** signal and process_queue *)

Lemma for_listeners_ok (code : Obj) (message : Value) (ls : list Obj) (k : Kernel) :
  Forall is_function ls ->
  for_listeners code message ls k =
    Ok (with_events (events k ++ map (fun l => Called code l message) ls) k).
Proof.
  revert k. induction ls as [|l ls IH]; intros k Hfun; simpl.
  - rewrite app_nil_r. destruct k; reflexivity.
  - inversion Hfun as [|? ? Hl Hls]; subst.
    destruct l as [s|c]; [contradiction|].
    unfold run_later, call, mbind, Outcome_bind. simpl.
    rewrite (IH _ Hls). simpl. rewrite <- app_assoc. reflexivity.
Qed.

Lemma for_queue_ok (queue : list (Obj * Value)) (k : Kernel) :
  listeners_callable k ->
  for_queue queue k =
    Ok (with_last_message (record_all queue (last_message k))
          (with_events (events k ++ deliveries (listeners k) queue) k)).
Proof.
  revert k. induction queue as [|[code message] queue IH]; intros k Hcall.
  - simpl. rewrite app_nil_r. destruct k; reflexivity.
  - simpl. unfold mbind, Outcome_bind.
    destruct (listeners k !! code) as [ls|] eqn:Hls; simpl.
    + rewrite (for_listeners_ok _ _ _ _ (Hcall _ _ Hls)). simpl.
      rewrite IH by exact Hcall. simpl.
      rewrite <- app_assoc. reflexivity.
    + rewrite IH by exact Hcall. reflexivity.
Qed.

Lemma dict_set_twice {K V} `{EqDecision K} (key : K) (v1 v2 : V) (d : list (K * V)) :
  dict_set key v2 (dict_set key v1 d) = dict_set key v2 d.
Proof.
  induction d as [|[k' v'] d IH]; simpl.
  - rewrite decide_True by reflexivity. reflexivity.
  - destruct (decide (key = k')) as [->|Hne]; simpl.
    + rewrite decide_True by reflexivity. reflexivity.
    + rewrite decide_False by exact Hne. rewrite IH. reflexivity.
Qed.

Lemma dict_set_keys {K V} `{EqDecision K} (key : K) (v : V) (d : list (K * V)) :
  map fst (dict_set key v d) =
    if decide (key ∈ map fst d) then map fst d else map fst d ++ [key].
Proof.
  induction d as [|[k' v'] d IH]; cbn [dict_set map fst].
  - rewrite decide_False by apply not_elem_of_nil. reflexivity.
  - destruct (decide (key = k')) as [->|Hne]; cbn [dict_set map fst].
    + rewrite decide_True by apply list_elem_of_here. reflexivity.
    + rewrite IH. destruct (decide (key ∈ map fst d)) as [Hin|Hnin].
      * rewrite decide_True by (apply list_elem_of_further; exact Hin). reflexivity.
      * rewrite decide_False; [reflexivity|].
        intros Hin. apply elem_of_cons in Hin as [Heq|Hin]; contradiction.
Qed.

Lemma dict_set_NoDup {K V} `{EqDecision K} (key : K) (v : V) (d : list (K * V)) :
  NoDup (map fst d) -> NoDup (map fst (dict_set key v d)).
Proof.
  intros Hnd. rewrite dict_set_keys.
  destruct (decide (key ∈ map fst d)) as [Hin|Hnin]; [exact Hnd|].
  apply NoDup_app. split; [exact Hnd|]. split.
  - intros x Hx Hx'. apply list_elem_of_singleton in Hx'. subst. contradiction.
  - apply NoDup_singleton.
Qed.

Lemma dict_set_elem {K V} `{EqDecision K} (key : K) (v : V) (d : list (K * V)) :
  (key, v) ∈ dict_set key v d.
Proof.
  induction d as [|[k' v'] d IH]; simpl.
  - apply list_elem_of_here.
  - destruct (decide (key = k')) as [->|Hne].
    + apply list_elem_of_here.
    + apply list_elem_of_further. exact IH.
Qed.

Lemma filter_key_absent (topic : Obj) (q : list (Obj * Value)) :
  topic ∉ map fst q ->
  List.filter (fun e => bool_decide (fst e = topic)) q = [].
Proof.
  induction q as [|[c m] q IH]; intros Hnin; simpl.
  - reflexivity.
  - apply not_elem_of_cons in Hnin as [Hne Hnin].
    rewrite bool_decide_eq_false_2 by (intros Heq; apply Hne; symmetry; exact Heq).
    apply IH. exact Hnin.
Qed.

Lemma filter_key_unique (topic : Obj) (v : Value) (q : list (Obj * Value)) :
  NoDup (map fst q) -> (topic, v) ∈ q ->
  List.filter (fun e => bool_decide (fst e = topic)) q = [(topic, v)].
Proof.
  induction q as [|[c m] q IH]; intros Hnd Hin.
  - inversion Hin.
  - simpl in Hnd. apply NoDup_cons in Hnd as [Hc Hnd]. simpl.
    apply elem_of_cons in Hin as [Heq|Hin].
    + inversion Heq; subst c m.
      rewrite bool_decide_eq_true_2 by reflexivity.
      rewrite (filter_key_absent _ _ Hc). reflexivity.
    + assert (c <> topic) as Hne.
      { intros ->. apply Hc. apply (list_elem_of_fmap_2 fst) in Hin. exact Hin. }
      rewrite bool_decide_eq_false_2 by exact Hne.
      apply IH; assumption.
Qed.

Lemma filter_deliveries (topic : Obj) (L : gmap Obj (list Obj)) (q : list (Obj * Value)) :
  List.filter (called_for topic) (deliveries L q) =
    deliveries L (List.filter (fun e => bool_decide (fst e = topic)) q).
Proof.
  unfold deliveries. induction q as [|[c m] q IH]; simpl.
  - reflexivity.
  - rewrite List.filter_app, IH.
    destruct (decide (c = topic)) as [Heq|Hne].
    + rewrite bool_decide_eq_true_2 by exact Heq. simpl. f_equal.
      induction (default [] (L !! c)) as [|l ls IHl]; simpl; [reflexivity|].
      rewrite bool_decide_eq_true_2 by exact Heq. f_equal. exact IHl.
    + rewrite bool_decide_eq_false_2 by exact Hne.
      rewrite <- (app_nil_l (flat_map _ _)) at 2. f_equal.
      induction (default [] (L !! c)) as [|l ls IHl]; simpl; [reflexivity|].
      rewrite bool_decide_eq_false_2 by exact Hne. exact IHl.
Qed.

Lemma record_all_absent (topic : Obj) (q : list (Obj * Value)) (lm : gmap Obj Value) :
  topic ∉ map fst q -> record_all q lm !! topic = lm !! topic.
Proof.
  revert lm. induction q as [|[c m] q IH]; intros lm Hnin; simpl.
  - reflexivity.
  - apply not_elem_of_cons in Hnin as [Hne Hnin].
    unfold record_all in *. simpl. rewrite IH by exact Hnin.
    apply lookup_insert_ne. intros Heq. apply Hne. symmetry. exact Heq.
Qed.

Lemma record_all_present (topic : Obj) (v : Value) (q : list (Obj * Value))
    (lm : gmap Obj Value) :
  NoDup (map fst q) -> (topic, v) ∈ q -> record_all q lm !! topic = Some v.
Proof.
  revert lm. induction q as [|[c m] q IH]; intros lm Hnd Hin.
  - inversion Hin.
  - simpl in Hnd. apply NoDup_cons in Hnd as [Hc Hnd].
    apply elem_of_cons in Hin as [Heq|Hin].
    + inversion Heq; subst c m. unfold record_all. simpl.
      fold (record_all q (<[topic := v]> lm)).
      rewrite (record_all_absent _ _ _ Hc). apply lookup_insert_eq.
    + unfold record_all. simpl. apply IH; assumption.
Qed.

(** C5: after [signal(topic, v1)] and [signal(topic, v2)] with no flush in
    between, [process_queue] returns normally; among the listener calls it
    makes, those made for [topic] are exactly one call per entry of the
    topic's listener list, in subscription order, each with [v2] (none with
    [v1]); and [last_message[topic]] is [v2] whether or not the topic has
    listeners.  The pending map is a dict (its keys are distinct) and the
    registered listeners are function objects. *)
Theorem C5_coalesced_delivery (topic : Obj) (v1 v2 : Value) (k : Kernel) :
  listeners_callable k ->
  NoDup (map fst (message_queue k)) ->
  exists (k' : Kernel) (new : list Event),
    Kernel_process_queue (Kernel_signal topic v2 (Kernel_signal topic v1 k)) = Ok k' /\
    events k' = events k ++ new /\
    List.filter (called_for topic) new =
      map (fun l => Called topic l v2) (subscribers k topic) /\
    last_message k' !! topic = Some v2 /\
    message_queue k' = [] /\
    listeners k' = listeners k.
Proof.
  intros Hcall Hnd.
  unfold Kernel_process_queue, Kernel_signal. simpl.
  rewrite dict_set_twice.
  set (q := dict_set topic v2 (message_queue k)).
  rewrite for_queue_ok by exact Hcall. simpl.
  eexists. exists (deliveries (listeners k) q).
  split; [reflexivity|]. simpl.
  assert (NoDup (map fst q)) as Hq by (apply dict_set_NoDup; exact Hnd).
  assert ((topic, v2) ∈ q) as Hin by apply dict_set_elem.
  split; [reflexivity|]. split.
  - rewrite filter_deliveries, (filter_key_unique _ _ _ Hq Hin).
    unfold deliveries, subscribers. simpl. rewrite app_nil_r. reflexivity.
  - split; [apply record_all_present; assumption|].
    split; reflexivity.
Qed.

Lemma C5_coalesced_delivery_witness :
  exists (k' : Kernel) (new : list Event),
    Kernel_process_queue
      (Kernel_signal (OStr "t") (VInt 2)
         (Kernel_signal (OStr "t") (VInt 1) kernel_one_listener)) = Ok k' /\
    events k' = events kernel_one_listener ++ new /\
    List.filter (called_for (OStr "t")) new =
      map (fun l => Called (OStr "t") l (VInt 2))
          (subscribers kernel_one_listener (OStr "t")) /\
    last_message k' !! OStr "t" = Some (VInt 2) /\
    message_queue k' = [] /\
    listeners k' = listeners kernel_one_listener.
Proof.
  apply (C5_coalesced_delivery (OStr "t") (VInt 1) (VInt 2) kernel_one_listener).
  - intros code ls Hls. unfold kernel_one_listener in Hls. simpl in Hls.
    apply lookup_singleton_Some in Hls as [_ <-].
    repeat constructor.
  - simpl. constructor.
Defined.

(** *** load *)

Lemma for_load_types_spec (name pathname : string) (group : Value)
    (types : list (string * list string * string)) (k : Kernel) :
  for_load_types name types pathname group k =
    if existsb (fun t => endswith (lower pathname) (snd (fst t))) types
    then Some (with_events (events k ++ [Loaded name pathname group]) k)
    else None.
Proof.
  induction types as [|[[description extensions] mimetype] types IH]; simpl.
  - reflexivity.
  - destruct (endswith (lower pathname) extensions); simpl; [reflexivity|exact IH].
Qed.

(** C8, as written, fails: a loader that advertises the extension [SVG]
    matches [drawing.svg] when case is ignored on both sides, yet [load]
    calls no loader and returns [None], because only the pathname is
    lower-cased. *)
Lemma C8_upper_case_extension_never_matches :
  (exists l, find (loader_accepts_any_case "drawing.svg")
                  (loaders kernel_upper_case_loader) = Some l) /\
  Kernel_load "drawing.svg" VNone kernel_upper_case_loader =
    (kernel_upper_case_loader, VNone).
Proof.
  split.
  - eexists. vm_compute. reflexivity.
  - vm_compute. reflexivity.
Qed.

(** C8 (amended): [load(pathname, group)] goes through the loaders in the
    order of the [loaders] dict and, within each, through its advertised
    entries; the first loader with an entry one of whose extensions, taken as
    advertised, ends the lower-cased pathname is called once as
    [loader.load(pathname, group)] with the pathname as given, and [load]
    returns [True]; when there is no such loader, no loader is called, the
    kernel is unchanged and [load] returns [None]. *)
Theorem C8_load_first_match (pathname : string) (group : Value) (k : Kernel) :
  Kernel_load pathname group k =
    match find (loader_accepts pathname) (loaders k) with
    | Some (name, _) =>
        (with_events (events k ++ [Loaded name pathname group]) k, VBool true)
    | None => (k, VNone)
    end.
Proof.
  unfold Kernel_load. generalize (loaders k) as ls.
  induction ls as [|[name loader] ls IH]; simpl.
  - reflexivity.
  - rewrite for_load_types_spec. unfold loader_accepts at 1. simpl.
    destruct (existsb _ (load_types loader)); [reflexivity|exact IH].
Qed.

(** ** Properties of KernelJob and Scheduler *)

Section SchedulerProperties.

Variable duration : Callable -> list Value -> Q.

Lemma bind_Ok {A B} (a : A) (k : A -> Outcome B) : (Ok a ≫= k) = k a.
Proof. reflexivity. Qed.

Lemma Ok_inj {A} (a b : A) : Ok a = Ok b -> a = b.
Proof. intros Heq. injection Heq. auto. Qed.

(** The prologue of an execution in closed form. *)
Lemma KernelJob_run_prologue_closed (self : JobRef) (j : KernelJob) (w : World) :
  heap w !! self = Some j ->
  KernelJob_run_prologue self j w =
    (if last_execution j then list_remove self (jobs w) else Ok (jobs w)) ≫=
    (fun l => Ok (with_jobs l (with_heap (<[self := executing_now j]> (heap w)) w))).
Proof.
  intros Hj. unfold KernelJob_run_prologue, last_execution, setattr, executing_now.
  destruct (times j) as [n|] eqn:Hn; simpl.
  - rewrite alter_alter_eq, (alter_alt_Some _ _ _ _ Hj).
    unfold with_jobs, with_heap, with_times, with_next_run, compose. simpl.
    destruct (n - 1 <=? 0); simpl; [|reflexivity].
    destruct (list_remove self (jobs w)); reflexivity.
  - rewrite (alter_alt_Some _ _ _ _ Hj).
    unfold with_jobs, with_heap, with_next_run. simpl. rewrite Hn. reflexivity.
Qed.

(** A whole execution in closed form. *)
Lemma KernelJob_run_closed (self : JobRef) (j : KernelJob) (w : World) :
  heap w !! self = Some j ->
  paused j = false ->
  KernelJob_run duration self w =
    (if last_execution j then list_remove self (jobs w) else Ok (jobs w)) ≫=
    (fun l =>
       Ok (mkWorld (Qplus (now w) (duration (process j) (args j)))
                   (calls w ++ [mkCall self (process j) (args j)])
                   (state w) l
                   (<[self := executed (duration (process j) (args j)) (now w) j]> (heap w))
                   (pc w))).
Proof.
  intros Hj Hp. unfold KernelJob_run. rewrite Hj, Hp.
  rewrite (KernelJob_run_prologue_closed _ _ _ Hj).
  destruct (if last_execution j then _ else _) as [l| |]; simpl; try reflexivity.
  unfold KernelJob_run_epilogue, invoke, setattr, with_heap, with_jobs, with_now,
    with_calls. simpl.
  rewrite alter_alter_eq, alter_insert_eq. reflexivity.
Qed.

(** What an execution of a job of the collection does: nothing when the job
    is paused, and otherwise what the closed form says, with the job taken
    out of the collection on its last execution. *)
Lemma KernelJob_run_cases (self : JobRef) (w : World) :
  self ∈ jobs w ->
  (KernelJob_run duration self w = Ok w /\
   (heap w !! self = None \/ exists j, heap w !! self = Some j /\ paused j = true)) \/
  (exists (j : KernelJob) (l : list JobRef),
      heap w !! self = Some j /\ paused j = false /\
      ((last_execution j = true /\
        exists l1 l2, jobs w = l1 ++ self :: l2 /\ (self ∉ l1) /\ l = l1 ++ l2) \/
       (last_execution j = false /\ l = jobs w)) /\
      KernelJob_run duration self w =
        Ok (mkWorld (Qplus (now w) (duration (process j) (args j)))
                    (calls w ++ [mkCall self (process j) (args j)])
                    (state w) l
                    (<[self := executed (duration (process j) (args j)) (now w) j]> (heap w))
                    (pc w))).
Proof.
  intros Hin.
  destruct (heap w !! self) as [j|] eqn:Hj.
  - destruct (paused j) eqn:Hp.
    + left. split; [|right; eauto].
      unfold KernelJob_run. rewrite Hj, Hp. reflexivity.
    + right. rewrite (KernelJob_run_closed _ _ _ Hj Hp).
      destruct (last_execution j) eqn:Hlast.
      * destruct (list_remove_present _ _ Hin) as (l1 & l2 & Hjobs & Hnotin & Hrm).
        exists j, (l1 ++ l2). rewrite Hrm.
        split; [reflexivity|]. split; [exact Hp|].
        split; [|reflexivity]. left. split; [exact Hlast|]. eauto.
      * exists j, (jobs w).
        split; [reflexivity|]. split; [exact Hp|].
        split; [|reflexivity]. right. split; [exact Hlast|reflexivity].
  - left. split; [|left; reflexivity].
    unfold KernelJob_run. rewrite Hj. reflexivity.
Qed.

(** An execution of a job of the collection never raises. *)
Lemma KernelJob_run_total (self : JobRef) (w : World) :
  self ∈ jobs w ->
  exists w', KernelJob_run duration self w = Ok w' /\
             (length (jobs w') <= length (jobs w))%nat /\
             state w' = state w /\ pc w' = pc w.
Proof.
  intros Hin.
  destruct (KernelJob_run_cases _ _ Hin)
    as [[Hrun _]|(j & l & _ & _ & Hl & Hrun)].
  - exists w. split; [exact Hrun|]. split; [lia|]. split; reflexivity.
  - eexists. split; [exact Hrun|]. simpl.
    split; [|split; reflexivity].
    destruct Hl as [(_ & l1 & l2 & -> & _ & ->)|(_ & ->)]; [|lia].
    rewrite !length_app. simpl. lia.
Qed.

(** The loop over the collection returns normally whenever its budget covers
    the jobs not yet visited; the scheduler state is not touched. *)
Lemma for_jobs_total (fuel i : nat) (w : World) :
  (length (jobs w) <= fuel + i)%nat ->
  exists w', for_jobs duration fuel i w = Ok w' /\
             state w' = state w /\ pc w' = pc w.
Proof.
  revert i w. induction fuel as [|fuel IH]; intros i w Hlen.
  - simpl. destruct (jobs w !! i) as [job|] eqn:Hjob.
    + apply lookup_lt_Some in Hjob. lia.
    + exists w. split; [reflexivity|]. split; reflexivity.
  - simpl. destruct (jobs w !! i) as [job|] eqn:Hjob.
    + assert (job ∈ jobs w) as Hin by (eapply list_elem_of_lookup_2; exact Hjob).
      destruct (match heap w !! job with
                | Some j => KernelJob_scheduled j w
                | None => false
                end).
      * destruct (KernelJob_run_total _ _ Hin) as (w1 & Hrun & Hlen1 & Hst & Hpc).
        rewrite Hrun. simpl.
        destruct (IH (S i) w1) as (w' & Hfor & Hst' & Hpc'); [lia|].
        exists w'. split; [exact Hfor|]. split; congruence.
      * simpl. destruct (IH (S i) w) as (w' & Hfor & Hst' & Hpc'); [lia|].
        exists w'. split; [exact Hfor|]. split; assumption.
    + exists w. split; [reflexivity|]. split; reflexivity.
Qed.

(** One turn of the loop: the job under the iterator is executed if it is
    due, and the iterator moves on. *)
Lemma for_jobs_visit (fuel i : nat) (w : World) (job : JobRef) :
  jobs w !! i = Some job ->
  for_jobs duration (S fuel) i w =
    (if match heap w !! job with
        | Some j => KernelJob_scheduled j w
        | None => false
        end
     then KernelJob_run duration job w else Ok w) ≫=
    for_jobs duration fuel (S i).
Proof. intros Hjob. simpl. rewrite Hjob. reflexivity. Qed.

(** A pass over the collection always returns normally. *)
Lemma tick_total (w : World) :
  exists w', tick duration w = Ok w' /\ state w' = state w /\ pc w' = pc w.
Proof. apply for_jobs_total. lia. Qed.

(** A property kept by every execution of a job of the collection is kept by
    the loop. *)
Lemma for_jobs_invariant (P : World -> Prop) :
  (forall w r w', P w -> r ∈ jobs w -> KernelJob_run duration r w = Ok w' -> P w') ->
  forall fuel i w w', P w -> for_jobs duration fuel i w = Ok w' -> P w'.
Proof.
  intros Hrun. induction fuel as [|fuel IH]; intros i w w' HP Hfor; simpl in Hfor.
  - destruct (jobs w !! i); [discriminate|]. inversion Hfor; subst. exact HP.
  - destruct (jobs w !! i) as [job|] eqn:Hjob.
    + assert (job ∈ jobs w) as Hin by (eapply list_elem_of_lookup_2; exact Hjob).
      destruct (match heap w !! job with
                | Some j => KernelJob_scheduled j w
                | None => false
                end).
      * destruct (KernelJob_run duration job w) as [w1| |] eqn:Hr;
          simpl in Hfor; try discriminate.
        eapply IH; [|exact Hfor]. eapply Hrun; eassumption.
      * simpl in Hfor. eapply IH; eassumption.
    + inversion Hfor; subst. exact HP.
Qed.

(** A property of the collection, the job objects and the call trace that
    every execution and every registration keeps is kept by every action. *)
Lemma exec_invariant (P : World -> Prop) :
  (forall w1 w2, jobs w1 = jobs w2 -> heap w1 = heap w2 -> calls w1 = calls w2 ->
                 P w1 -> P w2) ->
  (forall w r w', P w -> r ∈ jobs w -> KernelJob_run duration r w = Ok w' -> P w') ->
  (forall w run args interval times,
      P w -> P (snd (Scheduler_add_job run args interval times w))) ->
  forall acts w, P w -> P (exec duration acts w).
Proof.
  intros Hfields Hrun Hadd. unfold exec.
  induction acts as [|a acts IH]; intros w HP; simpl; [exact HP|].
  apply IH. destruct a; simpl.
  - unfold Scheduler_run_step.
    destruct (pc w);
      try (eapply Hfields; [| | |exact HP]; reflexivity);
      try (case_decide; (eapply Hfields; [| | |exact HP]; reflexivity)).
    destruct (tick duration w) as [w'| |] eqn:Htick;
      try (eapply Hfields; [| | |exact HP]; reflexivity).
    apply (Hfields w'); try reflexivity.
    exact (for_jobs_invariant P Hrun _ _ _ _ HP Htick).
  - eapply Hfields; [| | |exact HP]; reflexivity.
  - eapply Hfields; [| | |exact HP]; reflexivity.
  - eapply Hfields; [| | |exact HP]; reflexivity.
  - apply Hadd. exact HP.
Qed.

Lemma invocations_snoc (self : JobRef) (cs : list Call) (c : Call) :
  invocations self (cs ++ [c]) =
    (invocations self cs + (if decide (caller c = self) then 1 else 0))%nat.
Proof.
  unfold invocations. rewrite List.filter_app, length_app. simpl.
  destruct (decide (caller c = self)) as [Heq|Hne].
  - rewrite bool_decide_eq_true_2 by exact Heq. reflexivity.
  - rewrite bool_decide_eq_false_2 by exact Hne. reflexivity.
Qed.

Lemma invocations_none (self : JobRef) (cs : list Call) :
  (forall c, c ∈ cs -> caller c <> self) -> invocations self cs = 0%nat.
Proof.
  unfold invocations. induction cs as [|c cs IH]; intros Hnone; simpl.
  - reflexivity.
  - rewrite bool_decide_eq_false_2 by (apply Hnone; apply list_elem_of_here).
    apply IH. intros c' Hc'. apply Hnone. apply list_elem_of_further. exact Hc'.
Qed.

Lemma well_formed_init (t : Q) : well_formed (Scheduler_init t).
Proof.
  unfold well_formed, Scheduler_init. simpl.
  split; [constructor|]. split; intros x Hx; inversion Hx.
Qed.

Lemma well_formed_run (w : World) (r : JobRef) (w' : World) :
  well_formed w -> r ∈ jobs w -> KernelJob_run duration r w = Ok w' ->
  well_formed w'.
Proof.
  intros (Hnd & Hjobs & Hcalls) Hin Hrun.
  destruct (KernelJob_run_cases _ _ Hin)
    as [[Hsame _]|(j & l & Hj & Hp & Hl & Hclosed)].
  - rewrite Hsame in Hrun. inversion Hrun; subst. repeat split; assumption.
  - rewrite Hclosed in Hrun. inversion Hrun; subst w'. clear Hrun Hclosed.
    unfold well_formed. simpl.
    assert (forall x, is_Some (heap w !! x) ->
              is_Some (<[r := executed (duration (process j) (args j)) (now w) j]>
                         (heap w) !! x)) as Hkeep.
    { intros x Hx. rewrite lookup_insert_is_Some. destruct (decide (r = x)); auto. }
    assert (NoDup l /\ forall x, x ∈ l -> x ∈ jobs w) as [Hndl Hsub].
    { destruct Hl as [(_ & l1 & l2 & Hw & _ & ->)|(_ & ->)]; [|auto].
      rewrite Hw in Hnd |- *. split.
      - apply NoDup_app in Hnd as (Hn1 & Hdisj & Hn2).
        apply NoDup_cons in Hn2 as [_ Hn2].
        apply NoDup_app. split; [exact Hn1|]. split; [|exact Hn2].
        intros x Hx1 Hx2. apply (Hdisj x Hx1). apply list_elem_of_further. exact Hx2.
      - intros x Hx. apply elem_of_app in Hx as [Hx|Hx]; apply elem_of_app;
          [left; exact Hx|right; apply list_elem_of_further; exact Hx]. }
    split; [exact Hndl|]. split.
    + intros x Hx. apply Hkeep, Hjobs, Hsub, Hx.
    + intros c Hc. apply elem_of_app in Hc as [Hc|Hc].
      * apply Hkeep, Hcalls, Hc.
      * apply list_elem_of_singleton in Hc. subst c. simpl.
        apply Hkeep. rewrite Hj. eauto.
Qed.

Lemma add_job_fresh (w : World) (run : Callable) (args : list Value)
    (interval : Q) (times : option Z) :
  well_formed w ->
  let job := fst (Scheduler_add_job run args interval times w) in
  heap w !! job = None /\ (job ∉ jobs w) /\ invocations job (calls w) = 0%nat.
Proof.
  intros (Hnd & Hjobs & Hcalls). simpl.
  assert (heap w !! fresh (dom (heap w)) = None) as Hnone.
  { apply not_elem_of_dom. apply is_fresh. }
  split; [exact Hnone|]. split.
  - intros Hin. apply Hjobs in Hin. rewrite Hnone in Hin. destruct Hin; discriminate.
  - apply invocations_none. intros c Hc Heq. apply Hcalls in Hc.
    rewrite Heq, Hnone in Hc. destruct Hc; discriminate.
Qed.

Lemma well_formed_add_job (w : World) (run : Callable) (args : list Value)
    (interval : Q) (times : option Z) :
  well_formed w -> well_formed (snd (Scheduler_add_job run args interval times w)).
Proof.
  intros Hwf.
  destruct (add_job_fresh w run args interval times Hwf) as (Hnone & Hnotin & _).
  destruct Hwf as (Hnd & Hjobs & Hcalls).
  simpl in *. unfold well_formed. simpl.
  assert (forall x, is_Some (heap w !! x) ->
            is_Some (<[fresh (dom (heap w)) := KernelJob_init run args interval times w]>
                       (heap w) !! x)) as Hkeep.
  { intros x Hx. rewrite lookup_insert_is_Some.
    destruct (decide (fresh (dom (heap w)) = x)); auto. }
  split.
  - apply NoDup_app. split; [exact Hnd|]. split; [|apply NoDup_singleton].
    intros x Hx Hx'. apply list_elem_of_singleton in Hx'. subst x. contradiction.
  - split.
    + intros x Hx. apply elem_of_app in Hx as [Hx|Hx].
      * apply Hkeep, Hjobs, Hx.
      * apply list_elem_of_singleton in Hx. subst x.
        rewrite lookup_insert_eq. eauto.
    + intros c Hc. apply Hkeep, Hcalls, Hc.
Qed.

(** Whatever happens to a scheduler, its collection stays well formed. *)
Lemma well_formed_exec (acts : list Action) (w : World) :
  well_formed w -> well_formed (exec duration acts w).
Proof.
  apply (exec_invariant well_formed).
  - intros w1 w2 Hj Hh Hc. unfold well_formed. rewrite Hj, Hh, Hc. auto.
  - apply well_formed_run.
  - intros. apply well_formed_add_job. assumption.
Qed.

Lemma counting_run (self : JobRef) (N : Z) (w : World) (r : JobRef) (w' : World) :
  well_formed w -> counting self N w ->
  r ∈ jobs w -> KernelJob_run duration r w = Ok w' ->
  counting self N w'.
Proof.
  intros (Hnd & _ & _) (j & Hj & Hp & Hnext & Hpresent & Habsent) Hin Hrun.
  destruct (KernelJob_run_cases _ _ Hin)
    as [[Hsame _]|(jr & l & Hjr & Hpr & Hl & Hclosed)].
  { rewrite Hsame in Hrun. inversion Hrun; subst. exists j. auto. }
  rewrite Hclosed in Hrun. inversion Hrun; subst w'. clear Hrun Hclosed.
  unfold counting. simpl. rewrite invocations_snoc. simpl.
  destruct (decide (r = self)) as [->|Hne].
  - rewrite Hj in Hjr. inversion Hjr; subst jr. clear Hjr.
    destruct (Hpresent Hin) as [Htimes Hlt].
    exists (executed (duration (process j) (args j)) (now w) j).
    split; [apply lookup_insert_eq|]. split; [exact Hp|].
    split; [simpl; eauto|].
    unfold last_execution in Hl. simpl. rewrite Htimes in Hl |- *. simpl.
    destruct Hl as [(Hlast & l1 & l2 & Hw & Hn1 & ->)|(Hlast & ->)].
    + apply Z.leb_le in Hlast.
      assert (self ∉ l1 ++ l2) as Hgone.
      { rewrite Hw in Hnd. apply NoDup_app in Hnd as (_ & Hdisj & Hn2).
        apply NoDup_cons in Hn2 as [Hn2 _].
        intros Hx. apply elem_of_app in Hx as [Hx|Hx]; contradiction. }
      split; [intros Hx; contradiction|]. intros _. lia.
    + apply Z.leb_gt in Hlast.
      split; [|intros Hx; contradiction].
      intros _. split; [f_equal; lia|lia].
  - exists j. split; [rewrite lookup_insert_ne by exact Hne; exact Hj|].
    split; [exact Hp|]. split; [exact Hnext|]. rewrite Nat.add_0_r.
    assert (self ∈ l <-> self ∈ jobs w) as Hmem.
    { destruct Hl as [(_ & l1 & l2 & -> & _ & ->)|(_ & ->)]; [|tauto].
      rewrite !elem_of_app, elem_of_cons. split; [tauto|].
      intros [H1|[H2|H3]]; [tauto| |tauto]. symmetry in H2. contradiction. }
    split.
    + intros Hx. apply Hpresent, Hmem, Hx.
    + intros Hx. apply Habsent. intros Hy. apply Hx, Hmem, Hy.
Qed.

Lemma counting_add_job (self : JobRef) (N : Z) (w : World)
    (run : Callable) (args : list Value) (interval : Q) (times : option Z) :
  well_formed w -> counting self N w ->
  counting self N (snd (Scheduler_add_job run args interval times w)).
Proof.
  intros Hwf (j & Hj & Hp & Hnext & Hpresent & Habsent).
  destruct (add_job_fresh w run args interval times Hwf) as (Hnone & _ & _).
  simpl in *.
  assert (fresh (dom (heap w)) <> self) as Hne.
  { intros Heq. rewrite Heq, Hj in Hnone. discriminate. }
  exists j. simpl. split; [rewrite lookup_insert_ne by exact Hne; exact Hj|].
  split; [exact Hp|]. split; [exact Hnext|].
  assert (self ∈ jobs w ++ [fresh (dom (heap w))] <-> self ∈ jobs w) as Hmem.
  { rewrite elem_of_app, list_elem_of_singleton. split; [|tauto].
    intros [H1|H2]; [exact H1|]. symmetry in H2. contradiction. }
  split.
  - intros Hx. apply Hpresent, Hmem, Hx.
  - intros Hx. apply Habsent. intros Hy. apply Hx, Hmem, Hy.
Qed.

Lemma counting_registered (N : Z) (w : World)
    (run : Callable) (args : list Value) (interval : Q) :
  well_formed w -> 1 <= N ->
  counting (fst (Scheduler_add_job run args interval (Some N) w)) N
           (snd (Scheduler_add_job run args interval (Some N) w)).
Proof.
  intros Hwf HN.
  destruct (add_job_fresh w run args interval (Some N) Hwf) as (_ & _ & Hzero).
  simpl in *. eexists. simpl.
  split; [apply lookup_insert_eq|]. split; [reflexivity|].
  split; [simpl; eauto|].
  rewrite Hzero. simpl. split.
  - intros _. split; [f_equal; lia|lia].
  - intros Hx. exfalso. apply Hx. apply elem_of_app. right. apply list_elem_of_here.
Qed.

(** The bookkeeping of a counted job survives everything that happens to the
    scheduler. *)
Lemma counting_exec (self : JobRef) (N : Z) (acts : list Action) (w : World) :
  well_formed w -> counting self N w ->
  well_formed (exec duration acts w) /\ counting self N (exec duration acts w).
Proof.
  intros Hwf Hcount.
  apply (exec_invariant (fun w => well_formed w /\ counting self N w)).
  - intros w1 w2 Hj Hh Hc. unfold well_formed, counting. rewrite Hj, Hh, Hc. auto.
  - intros w0 r w' [Hwf0 Hc0] Hin Hrun. split.
    + eapply well_formed_run; eassumption.
    + eapply counting_run; eassumption.
  - intros w0 run args interval times [Hwf0 Hc0]. split.
    + apply well_formed_add_job. exact Hwf0.
    + apply counting_add_job; assumption.
  - split; assumption.
Qed.

(** As long as executions are owed, one more execution succeeds and adds
    one call. *)
Lemma counting_executions (self : JobRef) (N : Z) (n : nat) (w : World) :
  well_formed w -> counting self N w ->
  Z.of_nat (invocations self (calls w)) + Z.of_nat n <= N ->
  exists w', executions duration n self w = Ok w' /\
             well_formed w' /\ counting self N w' /\
             invocations self (calls w') = (invocations self (calls w) + n)%nat.
Proof.
  revert w. induction n as [|n IH]; intros w Hwf Hcount Hle.
  - exists w. simpl. rewrite Nat.add_0_r. auto.
  - assert (self ∈ jobs w) as Hin.
    { destruct Hcount as (j & _ & _ & _ & _ & Habsent).
      destruct (decide (self ∈ jobs w)) as [Hin|Hnin]; [exact Hin|].
      apply Habsent in Hnin. lia. }
    pose proof Hcount as (j & Hj & Hp & _ & _ & _).
    destruct (KernelJob_run_cases _ _ Hin)
      as [[_ [Hnone|(j' & Hj' & Hp')]]|(jr & l & Hjr & _ & _ & Hclosed)].
    + rewrite Hj in Hnone. discriminate.
    + rewrite Hj in Hj'. inversion Hj'; subst j'. rewrite Hp in Hp'. discriminate.
    + assert (well_formed
                (mkWorld (Qplus (now w) (duration (process jr) (args jr)))
                   (calls w ++ [mkCall self (process jr) (args jr)]) (state w) l
                   (<[self := executed (duration (process jr) (args jr)) (now w) jr]>
                      (heap w)) (pc w))) as Hwf1
        by exact (well_formed_run _ _ _ Hwf Hin Hclosed).
      assert (counting self N
                (mkWorld (Qplus (now w) (duration (process jr) (args jr)))
                   (calls w ++ [mkCall self (process jr) (args jr)]) (state w) l
                   (<[self := executed (duration (process jr) (args jr)) (now w) jr]>
                      (heap w)) (pc w))) as Hc1
        by exact (counting_run _ _ _ _ _ Hwf Hcount Hin Hclosed).
      destruct (IH _ Hwf1 Hc1) as (w' & Hex & Hwf' & Hc' & Hinv).
      { simpl. rewrite invocations_snoc. simpl.
        rewrite decide_True by reflexivity. lia. }
      exists w'. simpl. rewrite Hclosed. simpl.
      split; [exact Hex|]. split; [exact Hwf'|]. split; [exact Hc'|].
      rewrite Hinv. simpl. rewrite invocations_snoc. simpl.
      rewrite decide_True by reflexivity. lia.
Qed.

(** *** Counted jobs *)

(** The order of effects within one execution of a counted job. *)
Lemma KernelJob_run_order (self : JobRef) (w : World) (j : KernelJob) (n : Z) :
  heap w !! self = Some j -> paused j = false -> times j = Some n ->
  self ∈ jobs w -> NoDup (jobs w) ->
  exists mid w',
    KernelJob_run_prologue self j w = Ok mid /\
    (exists jm, heap mid !! self = Some jm /\
                next_run jm = None /\ times jm = Some (n - 1)) /\
    (self ∈ jobs mid <-> 0 < n - 1) /\
    calls mid = calls w /\
    w' = KernelJob_run_epilogue self (invoke duration self j mid) /\
    KernelJob_run duration self w = Ok w' /\
    calls w' = calls w ++ [mkCall self (process j) (args j)] /\
    now w' = Qplus (now w) (duration (process j) (args j)) /\
    jobs w' = jobs mid /\
    (exists j', heap w' !! self = Some j' /\
                last_run j' = now w' /\
                next_run j' = Some (Qplus (now w') (interval j)) /\
                times j' = Some (n - 1)).
Proof.
  intros Hj Hp Hn Hin Hnd.
  pose proof (KernelJob_run_prologue_closed self j w Hj) as Hpro.
  pose proof (KernelJob_run_closed self j w Hj Hp) as Hclosed.
  assert (KernelJob_run duration self w =
          KernelJob_run_prologue self j w ≫=
            (fun m => Ok (KernelJob_run_epilogue self (invoke duration self j m))))
    as Hdef.
  { unfold KernelJob_run. rewrite Hj, Hp. reflexivity. }
  assert (exists l, (if last_execution j then list_remove self (jobs w)
                     else Ok (jobs w)) = Ok l /\ (self ∈ l <-> 0 < n - 1))
    as (l & Hl & Hmem).
  { unfold last_execution. rewrite Hn.
    destruct (n - 1 <=? 0) eqn:Hlast.
    - apply Z.leb_le in Hlast.
      destruct (list_remove_present _ _ Hin) as (l1 & l2 & Hw & Hn1 & Hrm).
      exists (l1 ++ l2). split; [exact Hrm|].
      split; [|lia]. intros Hx. exfalso.
      rewrite Hw in Hnd. apply NoDup_app in Hnd as (_ & Hdisj & Hn2).
      apply NoDup_cons in Hn2 as [Hn2 _].
      apply elem_of_app in Hx as [Hx|Hx]; contradiction.
    - apply Z.leb_gt in Hlast. exists (jobs w). split; [reflexivity|].
      split; [lia|]. intros _. exact Hin. }
  rewrite Hl, bind_Ok in Hpro. rewrite Hl, bind_Ok in Hclosed.
  rewrite Hpro, bind_Ok in Hdef.
  eexists. eexists. split; [exact Hpro|].
  split.
  { eexists. simpl. split; [apply lookup_insert_eq|].
    unfold executing_now. simpl. rewrite Hn. split; reflexivity. }
  split; [exact Hmem|]. split; [reflexivity|]. split; [reflexivity|].
  split; [exact Hdef|].
  rewrite Hdef in Hclosed. apply Ok_inj in Hclosed. rewrite Hclosed. simpl.
  split; [reflexivity|]. split; [reflexivity|]. split; [reflexivity|].
  eexists. split; [apply lookup_insert_eq|].
  unfold executed. simpl. rewrite Hn. repeat split.
Qed.

(** *** Due jobs *)

Lemma scheduled_later (j j' : KernelJob) (w w' : World) :
  next_run j' = next_run j -> Qle (now w) (now w') ->
  KernelJob_scheduled j w = true -> KernelJob_scheduled j' w' = true.
Proof.
  unfold KernelJob_scheduled. intros -> Hle.
  destruct (next_run j) as [t|]; [|discriminate].
  rewrite !Qle_bool_iff. intros Hdue. eapply Qle_trans; eassumption.
Qed.

(** *** The scheduler state *)

Lemma exec_snoc (acts : list Action) (a : Action) (w : World) :
  exec duration (acts ++ [a]) w = act duration a (exec duration acts w).
Proof. unfold exec. rewrite fold_left_app. reflexivity. Qed.

Lemma exec_app (acts1 acts2 : list Action) (w : World) :
  exec duration (acts1 ++ acts2) w = exec duration acts2 (exec duration acts1 w).
Proof. unfold exec. apply fold_left_app. Qed.

(** The state after one action. *)
Lemma act_state (a : Action) (w : World) :
  state (act duration a w) =
    match a with
    | ActWorker =>
        match pc w with
        | PcEntry => THREAD_STATE_STARTED
        | PcFinish => THREAD_STATE_FINISHED
        | _ => state w
        end
    | ActResume => THREAD_STATE_STARTED
    | ActPause => THREAD_STATE_PAUSED
    | ActStop => THREAD_STATE_ABORT
    | ActAddJob _ _ _ _ => state w
    end.
Proof.
  destruct a; simpl; try reflexivity.
  unfold Scheduler_run_step.
  destruct (pc w); try reflexivity; try (case_decide; reflexivity).
  destruct (tick_total w) as (w' & Htick & Hst & _).
  rewrite Htick. simpl. exact Hst.
Qed.

(** The worker can only come to assign FINISHED through the exit of its
    [while] loop, which it takes on reading ABORT. *)
Lemma finish_after_abort (t : Q) (acts : list Action) :
  state (exec duration acts (Scheduler_init t)) = THREAD_STATE_FINISHED \/
  pc (exec duration acts (Scheduler_init t)) = PcFinish ->
  exists pre post,
    acts = pre ++ ActWorker :: post /\
    pc (exec duration pre (Scheduler_init t)) = PcWhile /\
    state (exec duration pre (Scheduler_init t)) = THREAD_STATE_ABORT.
Proof.
  induction acts as [|a acts IH] using rev_ind; intros Hfin.
  - simpl in Hfin. destruct Hfin; discriminate.
  - rewrite exec_snoc in Hfin.
    set (w := exec duration acts (Scheduler_init t)) in *.
    assert ((state w = THREAD_STATE_FINISHED \/ pc w = PcFinish) ->
            exists pre post,
              acts ++ [a] = pre ++ ActWorker :: post /\
              pc (exec duration pre (Scheduler_init t)) = PcWhile /\
              state (exec duration pre (Scheduler_init t)) = THREAD_STATE_ABORT)
      as Hback.
    { intros Hw. destruct (IH Hw) as (pre & post & -> & Hpc & Hst).
      exists pre, (post ++ [a]). rewrite <- app_assoc. auto. }
    rewrite act_state in Hfin.
    destruct a; simpl in Hfin.
    + unfold Scheduler_run_step in Hfin.
      destruct (pc w) eqn:Hpc; simpl in Hfin.
      * destruct Hfin; discriminate.
      * destruct (decide (state w = THREAD_STATE_ABORT)) as [Hab|Hnab].
        -- exists acts, []. auto.
        -- simpl in Hfin. destruct Hfin as [Hfin|Hfin]; [auto|discriminate].
      * destruct Hfin as [Hfin|Hfin]; [auto|discriminate].
      * destruct (decide (state w = THREAD_STATE_ABORT)); simpl in Hfin;
          destruct Hfin as [Hfin|Hfin]; try discriminate; auto.
      * destruct (decide (state w = THREAD_STATE_PAUSED)); simpl in Hfin;
          destruct Hfin as [Hfin|Hfin]; try discriminate; auto.
        rewrite Hpc in Hfin. discriminate.
      * destruct Hfin as [Hfin|Hfin]; [auto|].
        destruct (tick_total w) as (w' & Htick & _ & Hpc').
        rewrite Htick in Hfin. simpl in Hfin. discriminate.
      * auto.
      * destruct Hfin as [Hfin|Hfin]; [auto|]. rewrite Hpc in Hfin. discriminate.
    + destruct Hfin as [Hfin|Hfin]; [discriminate|auto].
    + destruct Hfin as [Hfin|Hfin]; [discriminate|auto].
    + destruct Hfin as [Hfin|Hfin]; [discriminate|auto].
    + auto.
Qed.

(** C2 (amended): from the Aborted state, [stop()], the registration of a
    job and every step of the worker inside its loop leave the state Aborted;
    the worker assigns Finished only after it has read Aborted at the test of
    its [while] loop; but [pause()] and [resume()] are plain assignments, so
    after [stop()] they do move the state to Paused and to Started, and so
    does the first statement of the worker when the thread is started after
    [stop()]. *)
Theorem C2_leaving_abort :
  (forall (a : Action) (w : World),
      state w = THREAD_STATE_ABORT ->
      state (act duration a w) =
        match a with
        | ActWorker =>
            match pc w with
            | PcEntry => THREAD_STATE_STARTED
            | PcFinish => THREAD_STATE_FINISHED
            | _ => THREAD_STATE_ABORT
            end
        | ActResume => THREAD_STATE_STARTED
        | ActPause => THREAD_STATE_PAUSED
        | ActStop | ActAddJob _ _ _ _ => THREAD_STATE_ABORT
        end) /\
  (forall (t : Q) (acts : list Action),
      state (exec duration acts (Scheduler_init t)) = THREAD_STATE_FINISHED ->
      exists pre post,
        acts = pre ++ ActWorker :: post /\
        pc (exec duration pre (Scheduler_init t)) = PcWhile /\
        state (exec duration pre (Scheduler_init t)) = THREAD_STATE_ABORT).
Proof.
  split.
  - intros a w Hab. rewrite act_state, Hab. reflexivity.
  - intros t acts Hfin. apply finish_after_abort. left. exact Hfin.
Qed.

End SchedulerProperties.

(** *** Progress of a started scheduler *)

Section SchedulerProgress.

Variable duration : Callable -> list Value -> Q.
Hypothesis duration_nonneg : forall c a, (0 <= duration c a)%Q.

Lemma lookup_first_occurrence (l1 l2 : list JobRef) (r : JobRef) (i : nat) :
  NoDup (l1 ++ r :: l2) -> (l1 ++ r :: l2) !! i = Some r -> i = length l1.
Proof.
  intros Hnd Hi.
  eapply NoDup_lookup; [exact Hnd|exact Hi|].
  apply list_lookup_middle. reflexivity.
Qed.

Lemma lookup_after_removal (l1 l2 : list JobRef) (r x : JobRef) (p : nat) :
  (length l1 < p)%nat -> (l1 ++ r :: l2) !! p = Some x ->
  (l1 ++ l2) !! (p - 1)%nat = Some x.
Proof.
  intros Hlt Hp.
  rewrite lookup_app_r in Hp by lia. rewrite lookup_app_r by lia.
  destruct (p - length l1)%nat as [|q] eqn:Hq; [lia|]. simpl in Hp.
  replace (p - 1 - length l1)%nat with q by lia. exact Hp.
Qed.

Lemma lookup_before_removal (l1 l2 : list JobRef) (r x : JobRef) (p : nat) :
  (p < length l1)%nat -> (l1 ++ r :: l2) !! p = Some x ->
  (l1 ++ l2) !! p = Some x.
Proof.
  intros Hlt Hp.
  rewrite lookup_app_l in Hp by lia. rewrite lookup_app_l by lia. exact Hp.
Qed.

(** What the execution of one job means for another job. *)
Lemma KernelJob_run_other (self r : JobRef) (w w' : World) (j : KernelJob) :
  r ∈ jobs w -> r <> self -> heap w !! self = Some j ->
  KernelJob_run duration r w = Ok w' ->
  heap w' !! self = Some j /\
  invocations self (calls w') = invocations self (calls w) /\
  (now w <= now w')%Q /\
  (jobs w' = jobs w \/
   exists l1 l2, jobs w = l1 ++ r :: l2 /\ jobs w' = l1 ++ l2).
Proof.
  intros Hin Hne Hj Hrun.
  destruct (KernelJob_run_cases duration _ _ Hin)
    as [[Hsame _]|(jr & l & Hjr & _ & Hl & Hclosed)].
  - rewrite Hsame in Hrun. apply Ok_inj in Hrun. subst w'.
    split; [exact Hj|]. split; [reflexivity|]. split; [lra|]. left. reflexivity.
  - rewrite Hclosed in Hrun. apply Ok_inj in Hrun. subst w'. simpl.
    split; [rewrite lookup_insert_ne by exact Hne; exact Hj|].
    split.
    { rewrite invocations_snoc. simpl. rewrite decide_False by exact Hne. lia. }
    split.
    { pose proof (duration_nonneg (process jr) (args jr)). lra. }
    destruct Hl as [(_ & l1 & l2 & Hw & _ & ->)|(_ & ->)]; [right; eauto|left; reflexivity].
Qed.

(** An execution never takes calls back and never turns the clock back. *)
Lemma KernelJob_run_mono (self r : JobRef) (w w' : World) :
  r ∈ jobs w -> KernelJob_run duration r w = Ok w' ->
  (invocations self (calls w) <= invocations self (calls w'))%nat /\
  (now w <= now w')%Q.
Proof.
  intros Hin Hrun.
  destruct (KernelJob_run_cases duration _ _ Hin)
    as [[Hsame _]|(jr & l & Hjr & _ & Hl & Hclosed)].
  - rewrite Hsame in Hrun. apply Ok_inj in Hrun. subst w'. split; [lia|lra].
  - rewrite Hclosed in Hrun. apply Ok_inj in Hrun. subst w'. simpl.
    rewrite invocations_snoc. split; [lia|].
    pose proof (duration_nonneg (process jr) (args jr)). lra.
Qed.

Lemma for_jobs_mono (self : JobRef) (fuel i : nat) (w w' : World) :
  for_jobs duration fuel i w = Ok w' ->
  (invocations self (calls w) <= invocations self (calls w'))%nat /\
  (now w <= now w')%Q.
Proof.
  apply (for_jobs_invariant duration
           (fun w' => (invocations self (calls w) <= invocations self (calls w'))%nat /\
                      (now w <= now w')%Q)).
  - intros w0 r w1 [Hc Hn] Hin Hrun.
    destruct (KernelJob_run_mono self r w0 w1 Hin Hrun) as [Hc' Hn'].
    split; [lia|lra].
  - split; [lia|lra].
Qed.

(** Once the iterator is past a job, the pass leaves the job alone and in its
    place. *)
Lemma for_jobs_beyond (self : JobRef) (fuel i : nat) (w w' : World)
    (p : nat) (j : KernelJob) :
  well_formed w -> jobs w !! p = Some self -> heap w !! self = Some j ->
  (p < i)%nat -> for_jobs duration fuel i w = Ok w' ->
  invocations self (calls w') = invocations self (calls w) /\
  heap w' !! self = Some j /\ (now w <= now w')%Q /\ jobs w' !! p = Some self.
Proof.
  revert i w. induction fuel as [|fuel IH]; intros i w Hwf Hp Hj Hlt Hfor.
  - simpl in Hfor. destruct (jobs w !! i); [discriminate|].
    apply Ok_inj in Hfor. subst w'. repeat split; auto. lra.
  - destruct (jobs w !! i) as [r|] eqn:Hi.
    2:{ simpl in Hfor. rewrite Hi in Hfor. apply Ok_inj in Hfor. subst w'.
        repeat split; auto. lra. }
    rewrite (for_jobs_visit duration fuel i w r Hi) in Hfor.
    assert (r ∈ jobs w) as Hin by (eapply list_elem_of_lookup_2; exact Hi).
    assert (r <> self) as Hne.
    { intros ->. destruct Hwf as (Hnd & _).
      pose proof (NoDup_lookup _ _ _ _ Hnd Hi Hp). lia. }
    destruct (match heap w !! r with
              | Some j0 => KernelJob_scheduled j0 w
              | None => false
              end).
    + destruct (KernelJob_run duration r w) as [w1| |] eqn:Hrun;
        try discriminate.
      rewrite bind_Ok in Hfor.
      destruct (KernelJob_run_other self r w w1 j Hin Hne Hj Hrun)
        as (Hj1 & Hc1 & Hn1 & Hjobs1).
      assert (jobs w1 !! p = Some self) as Hp1.
      { destruct Hjobs1 as [->|(l1 & l2 & Hw & ->)]; [exact Hp|].
        destruct Hwf as (Hnd & _). rewrite Hw in Hnd, Hi, Hp.
        pose proof (lookup_first_occurrence _ _ _ _ Hnd Hi).
        eapply lookup_before_removal; [|exact Hp]. lia. }
      destruct (IH (S i) w1 (well_formed_run duration _ _ _ Hwf Hin Hrun) Hp1 Hj1
                  ltac:(lia) Hfor) as (Hc & Hj' & Hn & Hp').
      split; [congruence|]. split; [exact Hj'|]. split; [lra|exact Hp'].
    + rewrite bind_Ok in Hfor.
      exact (IH (S i) w Hwf Hp Hj ltac:(lia) Hfor).
Qed.

(** A pass that has not yet gone past a job either executes it or, when it
    does not, leaves it alone; and a job that was due and was not executed
    has moved towards the front of the collection. *)
Lemma for_jobs_reaches (self : JobRef) (fuel i : nat) (w w' : World)
    (p : nat) (j : KernelJob) :
  well_formed w -> jobs w !! p = Some self -> heap w !! self = Some j ->
  paused j = false ->
  (i <= p)%nat -> for_jobs duration fuel i w = Ok w' ->
  (invocations self (calls w) < invocations self (calls w'))%nat \/
  (invocations self (calls w') = invocations self (calls w) /\
   heap w' !! self = Some j /\ (now w <= now w')%Q /\
   exists p', jobs w' !! p' = Some self /\ (p' <= p)%nat /\
              (KernelJob_scheduled j w = true -> (p' < p)%nat)).
Proof.
  revert i w p. induction fuel as [|fuel IH]; intros i w p Hwf Hp Hj Hpa Hle Hfor.
  - simpl in Hfor. destruct (jobs w !! i) eqn:Hi; [discriminate|].
    apply lookup_ge_None in Hi. apply lookup_lt_Some in Hp. lia.
  - destruct (jobs w !! i) as [r|] eqn:Hi.
    2:{ apply lookup_ge_None in Hi. apply lookup_lt_Some in Hp. lia. }
    rewrite (for_jobs_visit duration fuel i w r Hi) in Hfor.
    assert (r ∈ jobs w) as Hin by (eapply list_elem_of_lookup_2; exact Hi).
    destruct (decide (i = p)) as [->|Hip].
    + rewrite Hp in Hi. apply (inj Some) in Hi. subst r. rewrite Hj in Hfor.
      destruct (KernelJob_scheduled j w) eqn:Hdue.
      * left.
        destruct (KernelJob_run_cases duration self w Hin)
          as [[_ [Hnone|(j' & Hj' & Hp')]]|(jr & l & Hjr & _ & _ & Hclosed)].
        -- rewrite Hj in Hnone. discriminate.
        -- rewrite Hj in Hj'. apply (inj Some) in Hj'. subst j'.
           rewrite Hpa in Hp'. discriminate.
        -- rewrite Hclosed, bind_Ok in Hfor.
           apply (for_jobs_mono self) in Hfor as [Hc _]. simpl in Hc.
           rewrite invocations_snoc in Hc. simpl in Hc.
           rewrite decide_True in Hc by reflexivity. lia.
      * right. rewrite bind_Ok in Hfor.
        destruct (for_jobs_beyond self fuel (S p) w w' p j Hwf Hp Hj ltac:(lia) Hfor)
          as (Hc & Hj' & Hn & Hp').
        split; [exact Hc|]. split; [exact Hj'|]. split; [exact Hn|].
        exists p. split; [exact Hp'|]. split; [lia|discriminate].
    + assert (r <> self) as Hne.
      { intros ->. destruct Hwf as (Hnd & _).
        pose proof (NoDup_lookup _ _ _ _ Hnd Hi Hp). lia. }
      destruct (match heap w !! r with
                | Some j0 => KernelJob_scheduled j0 w
                | None => false
                end).
      * destruct (KernelJob_run duration r w) as [w1| |] eqn:Hrun;
          try discriminate.
        rewrite bind_Ok in Hfor.
        destruct (KernelJob_run_other self r w w1 j Hin Hne Hj Hrun)
          as (Hj1 & Hc1 & Hn1 & Hjobs1).
        pose proof (well_formed_run duration _ _ _ Hwf Hin Hrun) as Hwf1.
        assert (KernelJob_scheduled j w = true -> KernelJob_scheduled j w1 = true)
          as Hdue1 by (apply scheduled_later; [reflexivity|exact Hn1]).
        destruct Hjobs1 as [Hsame|(l1 & l2 & Hw & Hw1)].
        -- rewrite <- Hsame in Hp.
           destruct (IH (S i) w1 p Hwf1 Hp Hj1 Hpa ltac:(lia) Hfor)
             as [Hmore|(Hc & Hj' & Hn & p' & Hp' & Hle' & Hskip)].
           ++ left. lia.
           ++ right. split; [congruence|]. split; [exact Hj'|]. split; [lra|].
              exists p'. split; [exact Hp'|]. split; [exact Hle'|]. auto.
        -- destruct Hwf as (Hnd & Hrest). rewrite Hw in Hnd, Hi, Hp.
           pose proof (lookup_first_occurrence _ _ _ _ Hnd Hi) as Hlen.
           assert (jobs w1 !! (p - 1)%nat = Some self) as Hp1.
           { rewrite Hw1. eapply lookup_after_removal; [|exact Hp]. lia. }
           destruct (decide (S i <= p - 1)%nat) as [Hle1|Hgt1].
           ++ destruct (IH (S i) w1 (p - 1)%nat Hwf1 Hp1 Hj1 Hpa Hle1 Hfor)
                as [Hmore|(Hc & Hj' & Hn & p' & Hp' & Hle' & _)].
              ** left. lia.
              ** right. split; [congruence|]. split; [exact Hj'|]. split; [lra|].
                 exists p'. split; [exact Hp'|]. split; lia.
           ++ destruct (for_jobs_beyond self fuel (S i) w1 w' (p - 1)%nat j
                          Hwf1 Hp1 Hj1 ltac:(lia) Hfor) as (Hc & Hj' & Hn & Hp').
              right. split; [congruence|]. split; [exact Hj'|]. split; [lra|].
              exists (p - 1)%nat. split; [exact Hp'|]. split; lia.
      * rewrite bind_Ok in Hfor.
        exact (IH (S i) w p Hwf Hp Hj Hpa ltac:(lia) Hfor).
Qed.

(** One turn of the worker's loop on a started scheduler: five steps, from
    the test of the [while] back to it, through [sleep(0.1)] and one pass. *)
Lemma worker_loop (w : World) :
  pc w = PcWhile -> state w = THREAD_STATE_STARTED ->
  exists w',
    tick duration (with_pc PcTick (sleep (1 # 10) w)) = Ok w' /\
    state w' = THREAD_STATE_STARTED /\
    exec duration (repeat ActWorker 5) w = with_pc PcWhile w'.
Proof.
  intros Hpc Hst.
  destruct (tick_total duration (with_pc PcTick (sleep (1 # 10) w)))
    as (w' & Htick & Hst' & _).
  exists w'. split; [exact Htick|]. split; [rewrite Hst'; exact Hst|].
  unfold exec. simpl. unfold Scheduler_run_step at 5. rewrite Hpc.
  rewrite decide_False by (rewrite Hst; discriminate).
  unfold Scheduler_run_step at 4. simpl.
  unfold Scheduler_run_step at 3. simpl.
  rewrite decide_False by (rewrite Hst; discriminate).
  unfold Scheduler_run_step at 2. simpl.
  rewrite decide_False by (rewrite Hst; discriminate).
  unfold Scheduler_run_step at 1. simpl.
  change (tick duration _) with (tick duration (with_pc PcTick (sleep (1 # 10) w))).
  rewrite Htick. reflexivity.
Qed.

Lemma repeat_worker_app (k1 k2 : nat) (w : World) :
  exec duration (repeat ActWorker (k1 + k2)) w =
    exec duration (repeat ActWorker k2) (exec duration (repeat ActWorker k1) w).
Proof. rewrite repeat_app. apply exec_app. Qed.

(** Some number of tenths of a second covers any delay. *)
Lemma tenths_cover (t base : Q) :
  exists D : nat, (t <= base + inject_Z (Z.of_nat D) * (1 # 10))%Q.
Proof.
  exists (Z.to_nat (Qceiling ((t - base) * 10))).
  pose proof (Qle_ceiling ((t - base) * 10)) as H1.
  assert (inject_Z (Qceiling ((t - base) * 10)) <=
          inject_Z (Z.of_nat (Z.to_nat (Qceiling ((t - base) * 10)))))%Q as H2.
  { rewrite <- Zle_Qle. lia. }
  lra.
Qed.

(** On a started scheduler left to its worker, an unpaused job of the
    collection that has a next run time gets its work item called. *)
Lemma one_more_call (self : JobRef) (m : nat) :
  forall (p D : nat) (w : World) (j : KernelJob) (t : Q),
    (p + D < m)%nat ->
    well_formed w -> pc w = PcWhile -> state w = THREAD_STATE_STARTED ->
    jobs w !! p = Some self -> heap w !! self = Some j -> paused j = false ->
    next_run j = Some t ->
    (t <= now w + inject_Z (Z.of_nat D) * (1 # 10))%Q ->
    exists k,
      pc (exec duration (repeat ActWorker k) w) = PcWhile /\
      state (exec duration (repeat ActWorker k) w) = THREAD_STATE_STARTED /\
      (invocations self (calls w) <
       invocations self (calls (exec duration (repeat ActWorker k) w)))%nat.
Proof.
  induction m as [|m IH]; intros p D w j t Hm Hwf Hpc Hst Hp Hj Hpa Ht Hcover;
    [lia|].
  destruct (worker_loop w Hpc Hst) as (w1 & Htick & Hst1 & Hloop).
  assert (well_formed (with_pc PcTick (sleep (1 # 10) w))) as Hwfs by exact Hwf.
  destruct (for_jobs_reaches self _ 0%nat _ w1 p j Hwfs Hp Hj Hpa ltac:(lia) Htick)
    as [Hmore|(Hc & Hj1 & Hn1 & p' & Hp' & Hle & Hskip)].
  - exists 5%nat. rewrite Hloop. simpl. auto.
  - change (now w + (1 # 10) <= now w1)%Q in Hn1.
    assert (exists D', (p' + D' < m)%nat /\
                       (t <= now w1 + inject_Z (Z.of_nat D') * (1 # 10))%Q)
      as (D' & Hm' & Hcover').
    { destruct D as [|D].
      - exists 0%nat. change (inject_Z (Z.of_nat 0)) with 0%Q in Hcover |- *.
        assert (KernelJob_scheduled j (with_pc PcTick (sleep (1 # 10) w)) = true)
          as Hdue.
        { unfold KernelJob_scheduled. rewrite Ht. apply Qle_bool_iff.
          change (t <= now w + (1 # 10))%Q. lra. }
        apply Hskip in Hdue. split; [lia|]. lra.
      - exists D. split; [lia|].
        rewrite Nat2Z.inj_succ in Hcover. unfold Z.succ in Hcover.
        rewrite inject_Z_plus in Hcover. change (inject_Z 1) with 1%Q in Hcover.
        lra. }
    assert (well_formed (with_pc PcWhile w1)) as Hwf1.
    { rewrite <- Hloop. apply well_formed_exec. exact Hwf. }
    destruct (IH p' D' (with_pc PcWhile w1) j t Hm' Hwf1 eq_refl Hst1 Hp' Hj1 Hpa Ht
                Hcover') as (k & Hpck & Hstk & Hck).
    exists (5 + k)%nat. rewrite repeat_worker_app, Hloop.
    split; [exact Hpck|]. split; [exact Hstk|].
    simpl in Hck, Hc. rewrite Hc in Hck. exact Hck.
Qed.

(** On a started scheduler left to its worker, a counted job runs out: after
    finitely many steps of the worker it is out of the collection. *)
Lemma counted_job_completes (self : JobRef) (N : Z) (n : nat) :
  forall w : World,
    well_formed w -> counting self N w ->
    pc w = PcWhile -> state w = THREAD_STATE_STARTED ->
    (Z.to_nat (N - Z.of_nat (invocations self (calls w))) <= n)%nat ->
    exists k, self ∉ jobs (exec duration (repeat ActWorker k) w).
Proof.
  induction n as [|n IH]; intros w Hwf Hcount Hpc Hst Hn;
    destruct (decide (self ∈ jobs w)) as [Hin|Hout];
    try (exists 0%nat; exact Hout).
  - destruct Hcount as (j & _ & _ & _ & Hpresent & _).
    apply Hpresent in Hin. lia.
  - pose proof Hcount as (j & Hj & Hpa & [t Ht] & Hpresent & _).
    destruct (Hpresent Hin) as [_ Hlt].
    apply list_elem_of_lookup_1 in Hin as [p Hp].
    destruct (tenths_cover t (now w)) as [D HD].
    destruct (one_more_call self (S (p + D)) p D w j t ltac:(lia) Hwf Hpc Hst Hp Hj
                Hpa Ht HD) as (k1 & Hpc1 & Hst1 & Hmore).
    destruct (counting_exec duration self N (repeat ActWorker k1) w Hwf Hcount)
      as [Hwf1 Hcount1].
    destruct (IH _ Hwf1 Hcount1 Hpc1 Hst1) as [k2 Hgone]; [lia|].
    exists (k1 + k2)%nat. rewrite repeat_worker_app. exact Hgone.
Qed.

(** A started worker that has not left [run] comes back to the test of its
    [while] loop, still started. *)
Lemma worker_reaches_while (w : World) :
  state w = THREAD_STATE_STARTED -> pc w <> PcExit -> pc w <> PcFinish ->
  exists k,
    pc (exec duration (repeat ActWorker k) w) = PcWhile /\
    state (exec duration (repeat ActWorker k) w) = THREAD_STATE_STARTED.
Proof.
  intros Hst Hexit Hfinish.
  assert (forall w0, pc w0 = PcTick -> state w0 = THREAD_STATE_STARTED ->
            pc (act duration ActWorker w0) = PcWhile /\
            state (act duration ActWorker w0) = THREAD_STATE_STARTED) as Htick.
  { intros w0 Hpc0 Hst0. simpl. unfold Scheduler_run_step. rewrite Hpc0.
    destruct (tick_total duration w0) as (w' & Ht & Hs & _). rewrite Ht. simpl.
    split; [reflexivity|congruence]. }
  assert (forall w0, pc w0 = PcPauseLoop -> state w0 = THREAD_STATE_STARTED ->
            pc (act duration ActWorker w0) = PcTick /\
            state (act duration ActWorker w0) = THREAD_STATE_STARTED) as Hpause.
  { intros w0 Hpc0 Hst0. simpl. unfold Scheduler_run_step. rewrite Hpc0.
    rewrite decide_False by (rewrite Hst0; discriminate). auto. }
  assert (forall w0, pc w0 = PcAbortCheck -> state w0 = THREAD_STATE_STARTED ->
            pc (act duration ActWorker w0) = PcPauseLoop /\
            state (act duration ActWorker w0) = THREAD_STATE_STARTED) as Habort.
  { intros w0 Hpc0 Hst0. simpl. unfold Scheduler_run_step. rewrite Hpc0.
    rewrite decide_False by (rewrite Hst0; discriminate). auto. }
  assert (forall w0, pc w0 = PcSleep -> state w0 = THREAD_STATE_STARTED ->
            pc (act duration ActWorker w0) = PcAbortCheck /\
            state (act duration ActWorker w0) = THREAD_STATE_STARTED) as Hsleep.
  { intros w0 Hpc0 Hst0. simpl. unfold Scheduler_run_step. rewrite Hpc0. auto. }
  destruct (pc w) eqn:Hpc; try contradiction.
  - exists 1%nat. unfold exec. simpl. unfold Scheduler_run_step. rewrite Hpc. auto.
  - exists 0%nat. auto.
  - exists 4%nat. unfold exec. simpl.
    destruct (Hsleep w Hpc Hst) as [H1 H1'].
    destruct (Habort _ H1 H1') as [H2 H2'].
    destruct (Hpause _ H2 H2') as [H3 H3'].
    exact (Htick _ H3 H3').
  - exists 3%nat. unfold exec. simpl.
    destruct (Habort _ Hpc Hst) as [H2 H2'].
    destruct (Hpause _ H2 H2') as [H3 H3'].
    exact (Htick _ H3 H3').
  - exists 2%nat. unfold exec. simpl.
    destruct (Hpause _ Hpc Hst) as [H3 H3'].
    exact (Htick _ H3 H3').
  - exists 1%nat. unfold exec. simpl. exact (Htick _ Hpc Hst).
Qed.

End SchedulerProgress.

(** *** Paused jobs *)

Section PausedJobs.

Variable duration : Callable -> list Value -> Q.

Lemma well_formed_setattr (self : JobRef) (f : KernelJob -> KernelJob) (w : World) :
  well_formed w -> well_formed (setattr self f w).
Proof.
  intros (Hnd & Hjobs & Hcalls). unfold well_formed, setattr. simpl.
  split; [exact Hnd|].
  split; intros x Hx; apply lookup_alter_is_Some; auto.
Qed.

(** The guard of [KernelJob.run]: for a job whose [paused] flag is set,
    [run()] returns at once and leaves everything as it was: the work item is
    not called, the count, [next_run] and [last_run] are unchanged and the job
    stays in the collection.  A due job therefore stays due while the clock
    goes on, and once its flag is cleared the pass that reaches it executes
    it, calling its work item; in particular the first pass after that
    executes it if the jobs ahead of it in the collection keep their places
    during that pass. *)
Lemma paused_job_guard (self : JobRef) (w : World) (j : KernelJob) :
  heap w !! self = Some j -> paused j = true ->
  KernelJob_run duration self w = Ok w /\
  (forall (w' : World) (j' : KernelJob),
      next_run j' = next_run j -> Qle (now w) (now w') ->
      KernelJob_scheduled j w = true -> KernelJob_scheduled j' w' = true) /\
  (forall i fuel : nat,
      let wu := setattr self (with_paused false) w in
      jobs w !! i = Some self -> KernelJob_scheduled j w = true ->
      exists w1,
        KernelJob_run duration self wu = Ok w1 /\
        calls w1 = calls w ++ [mkCall self (process j) (args j)] /\
        for_jobs duration (S fuel) i wu = for_jobs duration fuel (S i) w1) /\
  ((forall c a, Qle 0 (duration c a)) -> well_formed w ->
   forall p : nat,
     let wu := setattr self (with_paused false) w in
     jobs w !! p = Some self -> KernelJob_scheduled j w = true ->
     exists w',
       tick duration wu = Ok w' /\
       ((forall q, (q < p)%nat -> jobs w' !! q = jobs w !! q) ->
        (invocations self (calls w) < invocations self (calls w'))%nat)).
Proof.
  intros Hj Hp.
  assert (heap (setattr self (with_paused false) w) !! self =
          Some (with_paused false j)) as Hju.
  { unfold setattr. simpl. rewrite lookup_alter_eq, Hj. reflexivity. }
  split; [|split; [|split]].
  - unfold KernelJob_run. rewrite Hj, Hp. reflexivity.
  - intros w' j'. apply scheduled_later.
  - intros i fuel wu Hi Hdue.
    assert (self ∈ jobs wu) as Hin.
    { eapply list_elem_of_lookup_2. exact Hi. }
    destruct (KernelJob_run_cases duration self wu Hin)
      as [[_ [Hnone|(j' & Hj' & Hp')]]|(jr & l & Hjr & _ & _ & Hclosed)].
    + unfold wu in Hnone. rewrite Hju in Hnone. discriminate.
    + unfold wu in Hj'. rewrite Hju in Hj'. inversion Hj'; subst j'. discriminate.
    + unfold wu in Hjr. rewrite Hju in Hjr. inversion Hjr; subst jr.
      eexists. split; [exact Hclosed|]. split; [reflexivity|].
      rewrite (for_jobs_visit duration fuel i wu self Hi). unfold wu at 1.
      rewrite Hju.
      change (KernelJob_scheduled (with_paused false j) wu)
        with (KernelJob_scheduled j w).
      rewrite Hdue, Hclosed. reflexivity.
  - intros Hnonneg Hwf p wu Hi Hdue.
    destruct (tick_total duration wu) as (w' & Htick & _ & _).
    exists w'. split; [exact Htick|]. intros Hkeep.
    pose proof (well_formed_setattr self (with_paused false) w Hwf) as Hwfu.
    destruct (for_jobs_reaches duration Hnonneg self _ 0%nat wu w' p
                (with_paused false j) Hwfu Hi Hju eq_refl ltac:(lia) Htick)
      as [Hmore|(_ & _ & _ & p' & Hp' & _ & Hskip)].
    + exact Hmore.
    + exfalso. apply Hskip in Hdue.
      rewrite (Hkeep p' Hdue) in Hp'.
      destruct Hwf as (Hnd & _).
      pose proof (NoDup_lookup _ _ _ _ Hnd Hp' Hi). lia.
Qed.

End PausedJobs.

(** *** The life of a counted job *)

Section CountedJobs.

Variable duration : Callable -> list Value -> Q.

(** C4: a job registered on a scheduler with the finite count [N >= 1] and
    never paused.  (1) Each execution first sets [next_run] to [None],
    decrements the count, takes the job out of the collection exactly when
    the count has reached zero, only then calls the work item once, and
    afterwards sets [last_run] to the clock and [next_run] to that plus the
    interval.  (2) The first [N] executions succeed; after fewer than [N] of
    them the job is still in the collection, after the [N]-th the work item
    has been called [N] times and the job is absent from it.  (3) Whatever
    the scheduler and other threads do after the registration, the count left
    is [N] less the calls made while the job is in the collection, and once
    it is out of the collection, where the worker no longer finds it, the
    calls are exactly [N].  (4) When work items take no negative time, a
    started scheduler left to its worker gets there: after finitely many
    steps of the worker the job is absent and its work item has been called
    exactly [N] times. *)
Theorem C4_finite_count (t : Q) (before : list Action)
    (run : Callable) (arguments : list Value) (period : Q) (N : Z) :
  1 <= N ->
  let w0 := exec duration before (Scheduler_init t) in
  let self := fst (Scheduler_add_job run arguments period (Some N) w0) in
  let w1 := snd (Scheduler_add_job run arguments period (Some N) w0) in
  (forall (after : list Action) (j : KernelJob) (n : Z),
      let w := exec duration after w1 in
      heap w !! self = Some j -> times j = Some n -> self ∈ jobs w ->
      exists mid w',
        KernelJob_run_prologue self j w = Ok mid /\
        (exists jm, heap mid !! self = Some jm /\
                    next_run jm = None /\ times jm = Some (n - 1)) /\
        (self ∈ jobs mid <-> 0 < n - 1) /\
        calls mid = calls w /\
        w' = KernelJob_run_epilogue self (invoke duration self j mid) /\
        KernelJob_run duration self w = Ok w' /\
        calls w' = calls w ++ [mkCall self (process j) (args j)] /\
        jobs w' = jobs mid /\
        (exists j', heap w' !! self = Some j' /\
                    last_run j' = now w' /\
                    next_run j' = Some (Qplus (now w') (interval j)) /\
                    times j' = Some (n - 1))) /\
  (forall n : nat,
      (n <= Z.to_nat N)%nat ->
      exists w',
        executions duration n self w1 = Ok w' /\
        invocations self (calls w') = n /\
        (self ∈ jobs w' <-> (n < Z.to_nat N)%nat)) /\
  (forall after : list Action,
      let w := exec duration after w1 in
      (Z.of_nat (invocations self (calls w)) <= N) /\
      (self ∉ jobs w -> Z.of_nat (invocations self (calls w)) = N) /\
      (self ∈ jobs w ->
         exists j, heap w !! self = Some j /\ paused j = false /\
                   times j = Some (N - Z.of_nat (invocations self (calls w))) /\
                   Z.of_nat (invocations self (calls w)) < N)) /\
  ((forall c a, Qle 0 (duration c a)) ->
   forall after : list Action,
     let w := exec duration after w1 in
     state w = THREAD_STATE_STARTED -> pc w <> PcExit -> pc w <> PcFinish ->
     exists k : nat,
       (self ∉ jobs (exec duration (repeat ActWorker k) w)) /\
       invocations self (calls (exec duration (repeat ActWorker k) w)) = Z.to_nat N).
Proof.
  intros HN w0 self w1.
  assert (well_formed w0) as Hwf0 by (apply well_formed_exec, well_formed_init).
  assert (well_formed w1) as Hwf1 by (apply well_formed_add_job; exact Hwf0).
  assert (counting self N w1) as Hc1 by (apply counting_registered; assumption).
  assert (invocations self (calls w1) = 0%nat) as Hzero
    by (apply (add_job_fresh w0 run arguments period (Some N) Hwf0)).
  split; [|split; [|split]].
  - intros after j n w Hj Hn Hin.
    destruct (counting_exec duration self N after w1 Hwf1 Hc1)
      as [(Hnd & _ & _) (j0 & Hj0 & Hp0 & _ & _ & _)].
    fold w in Hnd, Hj0. rewrite Hj in Hj0. inversion Hj0; subst j0.
    destruct (KernelJob_run_order duration self w j n Hj Hp0 Hn Hin Hnd)
      as (mid & w' & H1 & H2 & H3 & H4 & H5 & H6 & H7 & _ & H9 & H10).
    exists mid, w'. repeat (split; [assumption|]). assumption.
  - intros n Hle.
    destruct (counting_executions duration self N n w1 Hwf1 Hc1)
      as (w' & Hex & _ & Hc' & Hinv).
    { rewrite Hzero. lia. }
    rewrite Hzero in Hinv. simpl in Hinv.
    exists w'. split; [exact Hex|]. split; [exact Hinv|].
    destruct Hc' as (j & _ & _ & _ & Hpresent & Habsent). rewrite Hinv in *.
    split.
    + intros Hx. apply Hpresent in Hx. lia.
    + intros Hlt. destruct (decide (self ∈ jobs w')) as [Hx|Hx]; [exact Hx|].
      apply Habsent in Hx. lia.
  - intros after w.
    destruct (counting_exec duration self N after w1 Hwf1 Hc1)
      as [_ (j & Hj & Hp & _ & Hpresent & Habsent)].
    fold w in Hj, Hpresent, Habsent.
    split; [|split].
    + destruct (decide (self ∈ jobs w)) as [Hx|Hx].
      * apply Hpresent in Hx. lia.
      * apply Habsent in Hx. lia.
    + exact Habsent.
    + intros Hx. destruct (Hpresent Hx). exists j. auto.
  - intros Hnonneg after w Hst Hexit Hfinish.
    destruct (worker_reaches_while duration w Hst Hexit Hfinish)
      as (k0 & Hpc0 & Hst0).
    destruct (counting_exec duration self N (after ++ repeat ActWorker k0) w1 Hwf1 Hc1)
      as [Hwfa Hca].
    rewrite exec_app in Hwfa, Hca. fold w in Hwfa, Hca.
    destruct (counted_job_completes duration Hnonneg self N _ _ Hwfa Hca Hpc0 Hst0
                (Nat.le_refl _)) as [k Hgone].
    exists (k0 + k)%nat. rewrite repeat_worker_app.
    split; [exact Hgone|].
    destruct (counting_exec duration self N
                (after ++ repeat ActWorker k0 ++ repeat ActWorker k) w1 Hwf1 Hc1)
      as [_ (j & _ & _ & _ & _ & Habsent)].
    rewrite !exec_app in Habsent. fold w in Habsent.
    apply Habsent in Hgone. lia.
Qed.

End CountedJobs.

(** ** The statements on concrete schedulers *)

(** C2, as written, fails: after [stop()] the state is Aborted, and a
    following [resume()] makes it Started, a following [pause()] Paused. *)
Lemma C2_resume_and_pause_undo_stop :
  state (Scheduler_stop (Scheduler_init 0)) = THREAD_STATE_ABORT /\
  state (Scheduler_resume (Scheduler_stop (Scheduler_init 0))) = THREAD_STATE_STARTED /\
  state (Scheduler_pause (Scheduler_stop (Scheduler_init 0))) = THREAD_STATE_PAUSED.
Proof. repeat split. Qed.

Lemma C2_leaving_abort_witness :
  state (act instant ActStop (Scheduler_stop (Scheduler_init 0))) = THREAD_STATE_ABORT /\
  state (act instant ActResume (Scheduler_stop (Scheduler_init 0))) = THREAD_STATE_STARTED.
Proof.
  split.
  - apply (proj1 (C2_leaving_abort instant) ActStop (Scheduler_stop (Scheduler_init 0))).
    reflexivity.
  - apply (proj1 (C2_leaving_abort instant) ActResume (Scheduler_stop (Scheduler_init 0))).
    reflexivity.
Defined.

Lemma C4_finite_count_witness :
  exists w',
    executions instant 2
      (fst (Scheduler_add_job 7%nat [] 1 (Some 2) (Scheduler_init 0)))
      (snd (Scheduler_add_job 7%nat [] 1 (Some 2) (Scheduler_init 0))) = Ok w' /\
    invocations (fst (Scheduler_add_job 7%nat [] 1 (Some 2) (Scheduler_init 0)))
                (calls w') = 2%nat /\
    (fst (Scheduler_add_job 7%nat [] 1 (Some 2) (Scheduler_init 0)) ∈ jobs w' <->
     (2 < Z.to_nat 2)%nat).
Proof.
  apply (proj1 (proj2 (C4_finite_count instant 0 [] 7%nat [] 1 2 ltac:(lia))) 2%nat).
  simpl. lia.
Defined.

Lemma paused_job_guard_example :
  KernelJob_run instant 1%nat two_due_second_paused = Ok two_due_second_paused.
Proof.
  eapply (proj1 (paused_job_guard instant 1%nat two_due_second_paused _ _ _)).
  Unshelve.
  - exact (with_paused true (KernelJob_init 8%nat [] 1 None (Scheduler_init 0))).
  - vm_compute. reflexivity.
  - reflexivity.
Qed.

(** A job of count 3 in a running scheduler: three calls, then the job is
    gone. *)
Example counted_job_runs_out :
  calls after_forty_steps =
    [mkCall 0%nat 7%nat []; mkCall 0%nat 7%nat []; mkCall 0%nat 7%nat []] /\
  jobs after_forty_steps = [] /\
  state after_forty_steps = THREAD_STATE_STARTED.
Proof. vm_compute. repeat split. Qed.

(** C3 fails on the code.  With two due jobs in the collection, the first on
    its last run, one pass calls the work item of the first, which removes
    itself; the iterator then stands past the second job, which is due before
    and after the pass and whose work item is not called.  The same happens
    in the first pass of a running worker. *)
Theorem C3_due_job_skipped_after_self_removal :
  jobs two_due = [0%nat; 1%nat] /\
  (exists j, heap two_due !! 1%nat = Some j /\ paused j = false /\
             KernelJob_scheduled j two_due = true) /\
  (exists w',
      tick instant two_due = Ok w' /\
      calls w' = [mkCall 0%nat 7%nat []] /\
      jobs w' = [1%nat] /\
      invocations 1%nat (calls w') = 0%nat /\
      (exists j, heap w' !! 1%nat = Some j /\ KernelJob_scheduled j w' = true)) /\
  (pc after_first_pass = PcWhile /\
   calls after_first_pass = [mkCall 0%nat 7%nat []] /\
   jobs after_first_pass = [1%nat] /\
   exists j, heap after_first_pass !! 1%nat = Some j /\ paused j = false /\
             KernelJob_scheduled j after_first_pass = true).
Proof.
  split; [reflexivity|].
  split; [eexists; split; [reflexivity|]; split; reflexivity|].
  split.
  - eexists. split; [vm_compute; reflexivity|].
    split; [reflexivity|]. split; [reflexivity|]. split; [reflexivity|].
    eexists. split; reflexivity.
  - split; [reflexivity|]. split; [reflexivity|]. split; [reflexivity|].
    eexists. split; [reflexivity|]. split; reflexivity.
Qed.

(** C9 fails on the code in its last clause, by the defect of C3.  A due job
    is paused and [run()] on it does nothing, as the claim says; its flag is
    cleared; but the first pass after that does not call its work item,
    because the job before it removes itself during that pass and the
    iterator steps over it.  The job is still due after the pass. *)
Theorem C9_unpaused_due_job_not_run_on_first_tick :
  jobs two_due_second_paused = [0%nat; 1%nat] /\
  (exists j, heap two_due_second_paused !! 1%nat = Some j /\ paused j = true /\
             KernelJob_scheduled j two_due_second_paused = true) /\
  KernelJob_run instant 1%nat two_due_second_paused = Ok two_due_second_paused /\
  exists w',
    tick instant (setattr 1%nat (with_paused false) two_due_second_paused) = Ok w' /\
    calls w' = [mkCall 0%nat 7%nat []] /\
    invocations 1%nat (calls w') = 0%nat /\
    (exists j, heap w' !! 1%nat = Some j /\ paused j = false /\
               KernelJob_scheduled j w' = true).
Proof.
  split; [reflexivity|].
  split; [eexists; split; [reflexivity|]; split; reflexivity|].
  split; [reflexivity|].
  eexists. split; [vm_compute; reflexivity|].
  split; [reflexivity|]. split; [reflexivity|].
  eexists. split; [reflexivity|]. split; reflexivity.
Qed.
